(** * ticket-amend: a shallow embedding of [bin/ticket-amend.js]

    The script is one flat Node.js program: it interprets the argument
    list, locates the [.tickets] directory and the ticket file, parses the
    frontmatter into an ordered list of entries, applies the requested
    amendments and writes the file back.

    JavaScript strings are sequences of UTF-16 code units, so a string is a
    [list N] here and the regular expressions of the script are written out
    as the functions they denote on code units.  The Node.js runtime
    ([process.env], [process.cwd], [path], [fs]) is a record of functions,
    and the script's effects ([console.log], [console.error],
    [process.exit], [fs.writeFileSync], an uncaught exception) are
    collected by a small trace-and-halt monad.  A file's content is the
    text [fs.readFileSync(file, 'utf8')] returns for it, and what is
    written is the text handed to [fs.writeFileSync]. *)

From Stdlib Require Import NArith String Ascii.
From stdpp Require Import base list numbers.

Open Scope N_scope.

(** ** JavaScript strings and values *)

Abbreviation jstring := (list N).

(** A string literal of the script, as code units. *)
Definition js (s : string) : jstring :=
  N_of_ascii <$> list_ascii_of_string s.

Arguments js : simpl never.

(** The values a script variable holds here: [null], [undefined], a string. *)
Inductive jsval : Type :=
  | JNull
  | JUndefined
  | JStr (s : jstring).

#[global] Instance jsval_eq_dec : EqDecision jsval.
Proof. solve_decision. Defined.

(** [`${v}`]: string conversion inside a template literal. *)
Definition toString (v : jsval) : jstring :=
  match v with
  | JNull => js "null"
  | JUndefined => js "undefined"
  | JStr s => s
  end.

(** [if (v)] / [!v]: [null], [undefined] and the empty string are falsy. *)
Definition truthy (v : jsval) : bool :=
  match v with
  | JStr (_ :: _) => true
  | _ => false
  end.

(** [v !== null]. *)
Definition notNull (v : jsval) : bool :=
  match v with
  | JNull => false
  | _ => true
  end.

(** [a === b] on strings. *)
Definition streq (a b : jstring) : bool := bool_decide (a = b).

(** [arr.includes(x)]. *)
Definition arrIncludes (arr : list jstring) (x : jstring) : bool :=
  bool_decide (x ∈ arr).

(** [s.startsWith(p)]. *)
Fixpoint startsWith (s p : jstring) {struct p} : bool :=
  match p, s with
  | [], _ => true
  | _ :: _, [] => false
  | b :: p', a :: s' => (a =? b) && startsWith s' p'
  end.

(** [s.endsWith(p)]. *)
Definition endsWith (s p : jstring) : bool :=
  startsWith (reverse s) (reverse p).

(** [s.includes(p)]: [p] occurs in [s] as a contiguous substring. *)
Fixpoint includes (s p : jstring) : bool :=
  startsWith s p ||
  match s with
  | [] => false
  | _ :: s' => includes s' p
  end.

(** WhiteSpace and LineTerminator code points of ECMAScript, the ones
    [trim] and [trimEnd] strip. *)
Definition isWhiteSpace (c : N) : bool :=
  (9 <=? c) && (c <=? 13) || (c =? 32) || (c =? 160) || (c =? 5760)
  || (8192 <=? c) && (c <=? 8202) || (c =? 8232) || (c =? 8233)
  || (c =? 8239) || (c =? 8287) || (c =? 12288) || (c =? 65279).

(** LineTerminator code points: what [.] in a regular expression refuses. *)
Definition isLineTerminator (c : N) : bool :=
  (c =? 10) || (c =? 13) || (c =? 8232) || (c =? 8233).

Fixpoint trimStart (s : jstring) : jstring :=
  match s with
  | [] => []
  | c :: s' => if isWhiteSpace c then trimStart s' else s
  end.

Definition trimEnd (s : jstring) : jstring :=
  reverse (trimStart (reverse s)).

Definition trim (s : jstring) : jstring := trimEnd (trimStart s).

(** [s.split(sep)] for a one-character separator: the result is never
    empty, the empty string splits into one empty piece. *)
Fixpoint split (sep : N) (s : jstring) : list jstring :=
  match s with
  | [] => [[]]
  | c :: s' =>
      if c =? sep then [] :: split sep s'
      else match split sep s' with
           | [] => [[c]]
           | h :: t => (c :: h) :: t
           end
  end.

(** [arr.join(sep)]. *)
Fixpoint join (sep : jstring) (arr : list jstring) : jstring :=
  match arr with
  | [] => []
  | [x] => x
  | x :: rest => x ++ sep ++ join sep rest
  end.

(** The first occurrence of [d] in [s]: the text before it and after it. *)
Fixpoint breakOn (d s : jstring) : option (jstring * jstring) :=
  if startsWith s d then Some ([], drop (length d) s)
  else match s with
       | [] => None
       | c :: s' =>
           match breakOn d s' with
           | Some (a, b) => Some (c :: a, b)
           | None => None
           end
       end.

(** A greedy star over a character class [p]: the longest prefix in the
    class and what follows it. *)
Fixpoint spanClass (p : N → bool) (s : jstring) : jstring * jstring :=
  match s with
  | [] => ([], [])
  | c :: s' =>
      if p c then let '(a, b) := spanClass p s' in (c :: a, b)
      else ([], s)
  end.

(** ** Effects of the script

    A run leaves a trace of what it printed and wrote, and either goes on
    with a value or halts: [process.exit(code)], an exception nobody
    catches, or (an artefact of [findTicketsDir]'s [while (true)] being
    given fuel) running out of fuel. *)

Inductive event : Type :=
  | Stdout (line : jstring)               (* console.log *)
  | Stderr (line : jstring)               (* console.error *)
  | WriteFile (file content : jstring).   (* fs.writeFileSync *)

Inductive exn : Type :=
  | TypeError      (* a method called on [undefined] *)
  | FsError.       (* an [fs] call that throws *)

Inductive halt : Type :=
  | Exited (code : N)
  | Uncaught (e : exn)
  | OutOfFuel.

Definition M (A : Type) : Type := list event * (halt + A).

Definition ret {A} (a : A) : M A := ([], inr a).

Definition bind {A B} (c : M A) (k : A → M B) : M B :=
  match c with
  | (t, inl h) => (t, inl h)
  | (t, inr a) => let '(t', r) := k a in (t ++ t', r)
  end.

Notation "x <- c ;; k" := (bind c (λ x, k))
  (at level 100, c at next level, right associativity).
Notation "c ;;; k" := (bind c (λ _, k))
  (at level 100, right associativity).

Definition console_log (line : jstring) : M unit := ([Stdout line], inr tt).
Definition console_error (line : jstring) : M unit := ([Stderr line], inr tt).
Definition process_exit {A} (code : N) : M A := ([], inl (Exited code)).
Definition throw {A} (e : exn) : M A := ([], inl (Uncaught e)).

(** What a run printed, wrote and how it ended. *)
Definition trace {A} (c : M A) : list event := c.1.
Definition status {A} (c : M A) : halt + A := c.2.

(** The files a run wrote, in order. *)
Definition writes (t : list event) : list (jstring * jstring) :=
  omap (λ e, match e with WriteFile f c => Some (f, c) | _ => None end) t.

(** ** The Node.js runtime the script calls into *)

Record Node : Type := {
  env_TICKETS_DIR : option jstring;         (* process.env.TICKETS_DIR *)
  cwd : jstring;                            (* process.cwd() *)
  path_join : jstring → jstring → jstring;  (* path.join(a, b) *)
  path_dirname : jstring → jstring;         (* path.dirname(p) *)
  path_basename : jstring → jstring → jstring;  (* path.basename(p, ext) *)
  existsSync : jstring → bool;              (* fs.existsSync(p) *)
  isDirectory : jstring → bool;             (* fs.statSync(p).isDirectory() *)
  readdirSync : jstring → option (list jstring);  (* None: it throws *)
  readFileSync : jstring → option jstring;  (* None: it throws *)
  canWrite : jstring → bool                 (* false: writeFileSync throws *)
}.

(** ** Argument parsing (lines 9-72) *)

Definition LF : N := 10.

Definition describeLine : jstring :=
  js "tk-plugin: Amend fields on an existing ticket".

Definition usage : jstring := js "Usage: ticket-amend <id> [options]

Amend fields on an existing ticket.

Options:
  -d, --description TEXT    Append to description
  -t, --type TYPE           Set type (bug, feature, task, epic, chore)
  -p, --priority NUM        Set priority (0-4)
  -a, --assignee NAME       Set assignee
  --external-ref REF        Set external reference
  --parent ID               Set parent ticket
  --tags TAG1,TAG2          Append tags
  -h, --help                Show this help".

(** The variables the argument loop fills in. *)
Module Opt.
Record t : Type := mk {
  id : jsval;
  description : jsval;
  type : jsval;
  priority : jsval;
  assignee : jsval;
  externalRef : jsval;
  parent : jsval;
  tags : jsval
}.

(** [let id = null; let description = null; ...] *)
Definition init : t := mk JNull JNull JNull JNull JNull JNull JNull JNull.
End Opt.

(** The variable a [case] of the [switch] assigns. *)
Inductive slot : Type :=
  | Description | Type_ | Priority | Assignee | ExternalRef | Parent | Tags.

#[global] Instance slot_eq_dec : EqDecision slot.
Proof. solve_decision. Defined.

(** The [case] labels of the [switch]: which variable a token selects. *)
Definition flagSlot (a : jstring) : option slot :=
  if streq a (js "-d") || streq a (js "--description") then Some Description
  else if streq a (js "-t") || streq a (js "--type") then Some Type_
  else if streq a (js "-p") || streq a (js "--priority") then Some Priority
  else if streq a (js "-a") || streq a (js "--assignee") then Some Assignee
  else if streq a (js "--external-ref") then Some ExternalRef
  else if streq a (js "--parent") then Some Parent
  else if streq a (js "--tags") then Some Tags
  else None.

(** [<variable> = v]. *)
Definition assign (s : slot) (v : jsval) (o : Opt.t) : Opt.t :=
  let '(Opt.mk i d t p a e pa tg) := o in
  match s with
  | Description => Opt.mk i v t p a e pa tg
  | Type_ => Opt.mk i d v p a e pa tg
  | Priority => Opt.mk i d t v a e pa tg
  | Assignee => Opt.mk i d t p v e pa tg
  | ExternalRef => Opt.mk i d t p a v pa tg
  | Parent => Opt.mk i d t p a e v tg
  | Tags => Opt.mk i d t p a e pa v
  end.

(** [if (!id) id = args[i]]. *)
Definition positional (a : jstring) (o : Opt.t) : Opt.t :=
  if negb (truthy (Opt.id o)) then
    let '(Opt.mk _ d t p x e pa tg) := o in Opt.mk (JStr a) d t p x e pa tg
  else o.

(** The [for] loop over [args], from the token at index [i] on: [args] here
    is the part of the argument list not looked at yet.  A flag takes
    [args[++i]], which is [undefined] past the end of the list. *)
Fixpoint argLoop (args : list jstring) (o : Opt.t) : M Opt.t :=
  match args with
  | [] => ret o
  | a :: rest =>
      match flagSlot a with
      | Some s =>
          match rest with
          | v :: rest' => argLoop rest' (assign s (JStr v) o)
          | [] => ret (assign s JUndefined o)
          end
      | None =>
          if startsWith a (js "-") then
            console_error (js "Unknown option: " ++ a) ;;;
            process_exit 1
          else argLoop rest (positional a o)
      end
  end.

(** Lines 11-72: the two short-circuits, the loop, the check for an id. *)
Definition parseArgs (args : list jstring) : M Opt.t :=
  if arrIncludes args (js "--tk-describe") then
    console_log describeLine ;;; process_exit 0
  else if arrIncludes args (js "-h") || arrIncludes args (js "--help")
          || (length args =? 0)%nat then
    console_log usage ;;; process_exit 0
  else
    o <- argLoop args Opt.init ;;
    if negb (truthy (Opt.id o)) then
      console_error (js "Error: ticket ID is required") ;;; process_exit 1
    else ret o.

(** ** Ticket resolution (lines 74-126) *)

Section Locator.
Variable node : Node.

(** Lines 94-96, after the loop: the walk reached the root. *)
Definition noTicketsDir : M jstring :=
  console_error
    (js "Error: no .tickets directory found (searched parent directories)") ;;;
  console_error
    (js "Run 'tk create' to initialize, or set TICKETS_DIR env var") ;;;
  process_exit 1.

(** The [while (true)] loop of [findTicketsDir], with [dir] the directory
    it is looking at. *)
Fixpoint walkParents (fuel : nat) (dir : jstring) : M jstring :=
  match fuel with
  | O => ([], inl OutOfFuel)
  | S fuel' =>
      let candidate := path_join node dir (js ".tickets") in
      if existsSync node candidate && isDirectory node candidate then
        ret candidate
      else
        let parent := path_dirname node dir in
        if streq parent dir then noTicketsDir
        else walkParents fuel' parent
  end.

(** [if (envDir) return envDir]: an unset variable is [undefined]. *)
Definition findTicketsDir (fuel : nat) : M jstring :=
  let envDir := from_option JStr JUndefined (env_TICKETS_DIR node) in
  if truthy envDir then ret (toString envDir)
  else walkParents fuel (cwd node).

(** [entries.filter((f) => f.endsWith('.md') && f.includes(id.trim()))] *)
Definition ticketMatches (id : jstring) (entries : list jstring)
  : list jstring :=
  filter (λ f, endsWith f (js ".md") && includes f (trim id)) entries.

(** [resolveTicket(id)]; [id.trim()] throws when [id] is no string. *)
Definition resolveTicket (ticketsDir : jstring) (id : jsval) : M jstring :=
  match id with
  | JStr id =>
      let exact := path_join node ticketsDir (trim id ++ js ".md") in
      if existsSync node exact then ret exact
      else
        match readdirSync node ticketsDir with
        | None =>
            console_error (js "Error: cannot read " ++ ticketsDir) ;;;
            process_exit 1
        | Some entries =>
            let matches := ticketMatches id entries in
            if (length matches =? 1)%nat then
              ret (path_join node ticketsDir (default [] (matches !! 0%nat)))
            else if (1 <? length matches)%nat then
              console_error
                (js "Error: ambiguous ID '" ++ id
                 ++ js "' matches multiple tickets") ;;;
              process_exit 1
            else
              console_error
                (js "Error: ticket '" ++ id ++ js "' not found") ;;;
              process_exit 1
        end
  | _ => throw TypeError
  end.
End Locator.

(** ** Frontmatter parsing (lines 128-165) *)

(** An element of [fields]: [{ key, value }] or [{ raw }]. *)
Inductive entry : Type :=
  | Field (key : jstring) (value : jsval)
  | Raw (raw : jstring).

(** [f.key], [undefined] on a raw entry. *)
Definition entryKey (f : entry) : option jstring :=
  match f with
  | Field k _ => Some k
  | Raw _ => None
  end.

(** [content.match(...)] with the script's frontmatter pattern: [^---\n],
    a lazy group of any characters, [\n---\n], a greedy group of any
    characters up to [$].  The content starts with the delimiter line, the
    lazy group ends at the first closing delimiter, and the body is
    everything after it.  The result is the pair of the two groups. *)
Definition fmMatch (content : jstring) : option (jstring * jstring) :=
  if startsWith content (js "---" ++ [LF]) then
    breakOn ([LF] ++ js "---" ++ [LF]) (drop 4 content)
  else None.

Definition isLower (c : N) : bool := (97 <=? c) && (c <=? 122).
Definition isDigit (c : N) : bool := (48 <=? c) && (c <=? 57).
Definition isKeyChar (c : N) : bool := isLower c || isDigit c || (c =? 45).

(** [line.match(...)] with the field pattern: [^], the key group
    [[a-z][a-z0-9-]*], a colon, an optional space, the value group of
    characters [.] accepts, [$].  The result is the pair of the two
    groups, [m[1]] and [m[2]]. *)
Definition matchLine (line : jstring) : option (jstring * jstring) :=
  match line with
  | c :: rest =>
      if isLower c then
        let '(k, r) := spanClass isKeyChar rest in
        match r with
        | colon :: r1 =>
            if colon =? 58 then
              let v := match r1 with
                       | sp :: r2 => if sp =? 32 then r2 else r1
                       | [] => r1
                       end in
              if forallb (λ x, negb (isLineTerminator x)) v
              then Some (c :: k, v) else None
            else None
        | [] => None
        end
      else None
  | [] => None
  end.

(** The body of the loop over [fmLines]. *)
Definition parseLine (line : jstring) : entry :=
  match matchLine line with
  | Some (k, v) => Field k (JStr v)
  | None => Raw line
  end.

(** [fields] after the parse loop. *)
Definition parseFrontmatter (frontmatterRaw : jstring) : list entry :=
  parseLine <$> split LF frontmatterRaw.

Definition hasKey (key : jstring) (f : entry) : Prop := entryKey f = Some key.

#[global] Instance hasKey_dec key f : Decision (hasKey key f).
Proof. unfold hasKey. apply _. Defined.

(** [getField(key)]. *)
Definition getField (fields : list entry) (key : jstring) : jsval :=
  match list_find (hasKey key) fields with
  | Some (_, Field _ v) => v
  | Some (_, Raw _) => JUndefined
  | None => JNull
  end.

(** [fields[idx].value = value]. *)
Definition setValue (value : jsval) (f : entry) : entry :=
  match f with
  | Field k _ => Field k value
  | Raw r => Raw r
  end.

(** [setField(key, value)]. *)
Definition setField (fields : list entry) (key : jstring) (value : jsval)
  : list entry :=
  match list_find (hasKey key) fields with
  | Some (idx, _) => alter (setValue value) idx fields
  | None => fields ++ [Field key value]
  end.

(** ** Amendments (lines 167-229) *)

(** [if (v !== null) { setField(key, v); changed = true; }] *)
Definition amendScalar (key : jstring) (v : jsval) (st : list entry * bool)
  : list entry * bool :=
  if notNull v then (setField st.1 key v, true) else st.

(** [existing.replace(/^\[|\]$/g, '')]: one opening bracket at the start and
    one closing bracket at the end are removed. *)
Definition stripBrackets (s : jstring) : jstring :=
  let s1 := match s with 91 :: r => r | _ => s end in
  match reverse s1 with
  | 93 :: r => reverse r
  | _ => s1
  end.

(** [.split(',').map((t) => t.trim()).filter(Boolean)] *)
Definition parseTags (s : jstring) : list jstring :=
  filter (λ t, t ≠ []) (trim <$> split 44 s).

(** [if (!existingTags.includes(t)) existingTags.push(t)] *)
Definition pushNew (existingTags : list jstring) (t : jstring) : list jstring :=
  if arrIncludes existingTags t then existingTags else existingTags ++ [t].

(** [`[${existingTags.join(', ')}]`] *)
Definition encodeTags (l : list jstring) : jstring :=
  js "[" ++ join (js ", ") l ++ js "]".

(** The tag list built by lines 200-217. *)
Definition mergedTags (existing : jsval) (tags : jstring) : list jstring :=
  let existingTags :=
    if truthy existing then parseTags (stripBrackets (toString existing))
    else [] in
  foldl pushNew existingTags (parseTags tags).

(** The [tags] block; [tags.split] throws when [tags] is [undefined]. *)
Definition amendTags (tags : jsval) (st : list entry * bool)
  : M (list entry * bool) :=
  match tags with
  | JNull => ret st
  | JUndefined => throw TypeError
  | JStr tags =>
      let existing := getField st.1 (js "tags") in
      ret (setField st.1 (js "tags")
             (JStr (encodeTags (mergedTags existing tags))), true)
  end.

(** The description block: [newBody] and [changed]. *)
Definition amendDescription (description : jsval) (body : jstring)
  (changed : bool) : jstring * bool :=
  if notNull description then
    (trimEnd body ++ [LF; LF] ++ toString description ++ [LF], true)
  else (body, changed).

(** [`---\n${newFrontmatter}\n---\n${newBody}`] *)
Definition render (f : entry) : jstring :=
  match f with
  | Raw r => r
  | Field k v => k ++ js ": " ++ toString v
  end.

Definition serialize (fields : list entry) (newBody : jstring) : jstring :=
  js "---" ++ [LF] ++ join [LF] (render <$> fields)
  ++ [LF] ++ js "---" ++ [LF] ++ newBody.

Section Script.
Variable node : Node.

(** The [parent] block: the value is resolved like the ticket id. *)
Definition amendParent (ticketsDir : jstring) (parent : jsval)
  (st : list entry * bool) : M (list entry * bool) :=
  if notNull parent then
    parentFile <- resolveTicket node ticketsDir parent ;;
    let resolvedParent := path_basename node parentFile (js ".md") in
    ret (setField st.1 (js "parent") (JStr resolvedParent), true)
  else ret st.

(** Lines 130-242 on the content read from the ticket file: the text to
    write back. *)
Definition amend (ticketsDir : jstring) (o : Opt.t) (content : jstring)
  : M jstring :=
  match fmMatch content with
  | None =>
      console_error (js "Error: ticket has no valid frontmatter") ;;;
      process_exit 1
  | Some (frontmatterRaw, body) =>
      let st := (parseFrontmatter frontmatterRaw, false) in
      let st := amendScalar (js "type") (Opt.type o) st in
      let st := amendScalar (js "priority") (Opt.priority o) st in
      let st := amendScalar (js "assignee") (Opt.assignee o) st in
      let st := amendScalar (js "external-ref") (Opt.externalRef o) st in
      st <- amendParent ticketsDir (Opt.parent o) st ;;
      st <- amendTags (Opt.tags o) st ;;
      let '(newBody, changed) :=
        amendDescription (Opt.description o) body st.2 in
      if negb changed then
        console_error (js "Nothing to amend (no options provided)") ;;;
        process_exit 1
      else ret (serialize st.1 newBody)
  end.

(** [fs.writeFileSync(ticketFile, output, 'utf8')] *)
Definition writeFileSync (file content : jstring) : M unit :=
  if canWrite node file then ([WriteFile file content], inr tt)
  else throw FsError.

(** The whole script on the argument list [args]. *)
Definition main (fuel : nat) (args : list jstring) : M unit :=
  o <- parseArgs args ;;
  ticketsDir <- findTicketsDir node fuel ;;
  ticketFile <- resolveTicket node ticketsDir (Opt.id o) ;;
  content <- from_option ret (throw FsError) (readFileSync node ticketFile) ;;
  output <- amend ticketsDir o content ;;
  writeFileSync ticketFile output ;;;
  let ticketId := path_basename node ticketFile (js ".md") in
  console_log (js "Amended " ++ ticketId).
End Script.

(** ** A small runtime to run the script on

    Paths are slash-separated strings, the file system is a list of
    directories and a list of files with their contents. *)

Definition SLASH : N := 47.

Definition demo_join (a b : jstring) : jstring := a ++ [SLASH] ++ b.

Definition demo_dirname (p : jstring) : jstring :=
  match reverse (split SLASH p) with
  | _ :: (_ :: _ :: _) as up => join [SLASH] (reverse up)
  | _ => [SLASH]
  end.

Definition demo_basename (p ext : jstring) : jstring :=
  let name := List.last (split SLASH p) [] in
  if endsWith name ext then take (length name - length ext) name else name.

Definition demoNode (envDir : option jstring) (cwd : jstring)
  (dirs : list jstring) (files : list (jstring * jstring)) : Node :=
  {| env_TICKETS_DIR := envDir;
     cwd := cwd;
     path_join := demo_join;
     path_dirname := demo_dirname;
     path_basename := demo_basename;
     existsSync p := bool_decide (p ∈ dirs) || bool_decide (p ∈ files.*1);
     isDirectory p := bool_decide (p ∈ dirs);
     readdirSync d :=
       if bool_decide (d ∈ dirs) then
         Some ((λ f, demo_basename f []) <$>
               filter (λ f, demo_dirname f = d) (files.*1 ++ dirs))
       else None;
     readFileSync p := (λ x, x.2.2) <$> list_find (λ f, f.1 = p) files;
     canWrite _ := true |}.

(** The ticket of the repository's tests, [makeTicket({ tags })]. *)
Definition demoTicket (tagsLine : jstring) : jstring :=
  js "---
id: ab-1234
status: open
deps: []
links: []
created: 2026-01-01T00:00:00Z
type: task
priority: 2
assignee: Alice
" ++ tagsLine ++ js "---
# Test ticket

Original description
".

Definition demoStore (content : jstring) : Node :=
  demoNode (Some (js "/tmp/t/.tickets")) (js "/tmp/t")
    [js "/"; js "/tmp"; js "/tmp/t"; js "/tmp/t/.tickets"]
    [(js "/tmp/t/.tickets/ab-1234.md", content);
     (js "/tmp/t/.tickets/cd-5678.md", content)].

(** ** Readers used in the statements *)

(** The variable a slot names. *)
Definition slotValue (s : slot) (o : Opt.t) : jsval :=
  match s with
  | Description => Opt.description o
  | Type_ => Opt.type o
  | Priority => Opt.priority o
  | Assignee => Opt.assignee o
  | ExternalRef => Opt.externalRef o
  | Parent => Opt.parent o
  | Tags => Opt.tags o
  end.

(** [dir] after [k] rounds of [dir = path.dirname(dir)]. *)
Fixpoint ancestor (node : Node) (k : nat) (dir : jstring) : jstring :=
  match k with
  | O => dir
  | S k' => ancestor node k' (path_dirname node dir)
  end.

(** The test of the walk at [dir]: [dir/.tickets] exists and is a directory. *)
Definition hasTickets (node : Node) (dir : jstring) : bool :=
  existsSync node (path_join node dir (js ".tickets"))
  && isDirectory node (path_join node dir (js ".tickets")).

(** A project with its [.tickets] two levels above the working directory,
    and one without any. *)
Definition demoDeep (envDir : option jstring) : Node :=
  demoNode envDir (js "/tmp/t/a/b")
    [js "/"; js "/tmp"; js "/tmp/t"; js "/tmp/t/.tickets"; js "/tmp/t/a";
     js "/tmp/t/a/b"]
    [(js "/tmp/t/.tickets/ab-1234.md", demoTicket [])].

Definition demoBare : Node :=
  demoNode None (js "/tmp/x") [js "/"; js "/tmp"; js "/tmp/x"] [].

(** No option besides the id was given: all seven variables are still
    [null] after the argument loop. *)
Definition noMutation (o : Opt.t) : Prop :=
  ∀ s : slot, slotValue s o = JNull.

(** A computation that never calls [fs.writeFileSync]. *)
Definition quiet {A} (c : M A) : Prop := writes (trace c) = [].

(** A tag as the bracketed encoding can carry it: not empty, no
    surrounding whitespace, no comma. *)
Definition wellFormedTag (t : jstring) : Prop :=
  t ≠ [] ∧ trim t = t ∧ 44 ∉ t.

#[global] Instance wellFormedTag_dec (t : jstring) : Decision (wellFormedTag t).
Proof. unfold wellFormedTag. apply _. Defined.

(** The scalar options and the key each one writes (lines 171-189). *)
Definition scalarKeys : list (slot * jstring) :=
  [(Type_, js "type"); (Priority, js "priority"); (Assignee, js "assignee");
   (ExternalRef, js "external-ref")].

(** The only option given is the one of slot [s], with value [v]. *)
Definition onlyOption (s : slot) (v : jsval) (o : Opt.t) : Prop :=
  slotValue s o = v ∧ ∀ s', s' ≠ s → slotValue s' o = JNull.

(** ** The patterns, as predicates on their groups *)

(** [[a-z][a-z0-9-]*]: what the key group of the field pattern accepts. *)
Definition isKey (k : jstring) : bool :=
  match k with
  | c :: k0 => isLower c && forallb isKeyChar k0
  | [] => false
  end.

(** A text the value group accepts: no line terminator in it. *)
Definition noLineTerminator (v : jstring) : bool :=
  forallb (λ x, negb (isLineTerminator x)) v.

(** A line that [render] gives back as it was parsed. *)
Definition canonicalLine (line : jstring) : Prop :=
  render (parseLine line) = line.

(** An entry whose rendering is one line that parses into the entry. *)
Definition readsBack (f : entry) : Prop :=
  (LF ∉ render f) ∧ parseLine (render f) = f.

(** What the argument loop reads in one round when it does not stop: a
    value-taking flag with the token after it, or one token that does not
    start with a dash. *)
Definition argUnit (u : list jstring) : bool :=
  match u with
  | [f; _] => bool_decide (is_Some (flagSlot f))
  | [a] => negb (startsWith a (js "-"))
  | _ => false
  end.

(** * Properties *)

(** A decidable closed proposition, settled by evaluation. *)
Ltac by_compute :=
  match goal with |- ?P => apply (bool_decide_unpack P); vm_compute; exact I end.

(** ** The monad *)

Lemma bind_ret {A B} (a : A) (k : A → M B) : bind (ret a) k = k a.
Proof. unfold bind, ret. destruct (k a) as [t r]. reflexivity. Qed.

Lemma writes_app (t1 t2 : list event) : writes (t1 ++ t2) = writes t1 ++ writes t2.
Proof. apply omap_app. Qed.

(** ** Strings *)

Lemma streq_true (a b : jstring) : streq a b = true ↔ a = b.
Proof. unfold streq. rewrite bool_decide_eq_true. reflexivity. Qed.

Lemma arrIncludes_true (arr : list jstring) (x : jstring) :
  arrIncludes arr x = true ↔ x ∈ arr.
Proof. unfold arrIncludes. apply bool_decide_eq_true. Qed.

Lemma arrIncludes_false (arr : list jstring) (x : jstring) :
  arrIncludes arr x = false ↔ x ∉ arr.
Proof. unfold arrIncludes. apply bool_decide_eq_false. Qed.

Lemma startsWith_prefix (s p : jstring) :
  startsWith s p = true ↔ p `prefix_of` s.
Proof.
  revert s. induction p as [| b p IH]; intros s; simpl.
  - split; [intros _; apply prefix_nil | done].
  - destruct s as [| a s].
    + split; [done | intros H%prefix_nil_inv; discriminate].
    + rewrite andb_true_iff, N.eqb_eq, IH. split.
      * intros [-> H]. by apply prefix_cons.
      * intros H. split; [by apply prefix_cons_inv_1 in H | by apply prefix_cons_inv_2 in H].
Qed.

(** ** Argument parsing *)

(** C1: [--set KEY=VALUE] and [--append KEY=VALUE], which the README
    documents, are not cases of the argument loop's [switch]: the token
    falls to the [default] branch, starts with a dash, and the run ends with
    [Unknown option] and exit code 1 before anything is read or written. *)
Theorem set_and_append_are_unknown_options (node : Node) (fuel : nat) :
  main node fuel [js "ab-1234"; js "--set"; js "status=closed"]
    = ([Stderr (js "Unknown option: --set")], inl (Exited 1))
  ∧ main node fuel [js "ab-1234"; js "--append"; js "deps=cd-5678"]
    = ([Stderr (js "Unknown option: --append")], inl (Exited 1))
  ∧ (∀ rest o,
       argLoop (js "--set" :: rest) o
         = ([Stderr (js "Unknown option: --set")], inl (Exited 1))
       ∧ argLoop (js "--append" :: rest) o
         = ([Stderr (js "Unknown option: --append")], inl (Exited 1)))
  ∧ flagSlot (js "--set") = None ∧ flagSlot (js "--append") = None.
Proof. repeat split; reflexivity. Qed.

(** C9: with [--tk-describe] anywhere in the arguments the run prints the
    one-line descriptor and exits 0; otherwise, with no argument at all or
    with [-h] or [--help] among them, it prints the usage text and exits 0.
    Both hold for every runtime and with no fuel for the directory walk:
    nothing of the ticket store is looked at. *)
Theorem describe_and_help_exit_first (node : Node) (fuel : nat)
  (args : list jstring) :
  (js "--tk-describe" ∈ args →
     main node fuel args = ([Stdout describeLine], inl (Exited 0)))
  ∧ (js "--tk-describe" ∉ args →
     args = [] ∨ js "-h" ∈ args ∨ js "--help" ∈ args →
     main node fuel args = ([Stdout usage], inl (Exited 0)))
  ∧ LF ∉ describeLine.
Proof.
  split; [| split].
  - intros Hin. unfold main, parseArgs.
    apply arrIncludes_true in Hin. rewrite Hin. reflexivity.
  - intros Hnot Hhelp. unfold main, parseArgs.
    apply arrIncludes_false in Hnot. rewrite Hnot.
    assert (arrIncludes args (js "-h") || arrIncludes args (js "--help")
            || (length args =? 0)%nat = true) as ->; [| reflexivity].
    destruct Hhelp as [-> | [H | H]]; [reflexivity | |];
      apply arrIncludes_true in H; rewrite H;
      [reflexivity | apply orb_true_iff; left; apply orb_true_r].
  - by_compute.
Qed.

Lemma describe_and_help_exit_first_witness :
  main (demoStore []) 0 [js "ab-1234"; js "-t"; js "--tk-describe"]
    = ([Stdout describeLine], inl (Exited 0))
  ∧ main (demoStore []) 0 [js "ab-1234"; js "--help"]
    = ([Stdout usage], inl (Exited 0)).
Proof.
  split.
  - apply (proj1 (describe_and_help_exit_first _ 0 _)). by_compute.
  - apply (proj1 (proj2 (describe_and_help_exit_first _ 0 _))).
    + by_compute.
    + right; right. by_compute.
Defined.

(** ** Locating the [.tickets] directory *)

Section Walk.
Variable node : Node.

Lemma ancestor_root (k : nat) (dir : jstring) :
  path_dirname node dir = dir → ancestor node k dir = dir.
Proof. intros H. induction k as [| k IH]; simpl; [done | by rewrite H]. Qed.

(** The walk stops at the first directory that has a [.tickets]. *)
Lemma walkParents_found (k fuel : nat) (dir : jstring) :
  (k < fuel)%nat →
  (∀ j, (j < k)%nat → hasTickets node (ancestor node j dir) = false) →
  hasTickets node (ancestor node k dir) = true →
  walkParents node fuel dir
    = ret (path_join node (ancestor node k dir) (js ".tickets")).
Proof.
  revert fuel dir. induction k as [| k IH]; intros fuel dir Hfuel Hbefore Hk;
    (destruct fuel as [| fuel]; [lia |]); simpl in *.
  - unfold hasTickets in Hk. by rewrite Hk.
  - pose proof (Hbefore 0%nat ltac:(lia)) as H0. simpl in H0.
    unfold hasTickets in H0. rewrite H0.
    destruct (streq (path_dirname node dir) dir) eqn:Hroot.
    + apply streq_true in Hroot. rewrite Hroot in Hk.
      rewrite (ancestor_root k dir Hroot) in Hk.
      unfold hasTickets in Hk. congruence.
    + apply IH; [lia | | done].
      intros j Hj. apply (Hbefore (S j)). lia.
Qed.

(** With no [.tickets] up to the root, the walk ends there in an error. *)
Lemma walkParents_root (k fuel : nat) (dir : jstring) :
  (k < fuel)%nat →
  (∀ j, (j ≤ k)%nat → hasTickets node (ancestor node j dir) = false) →
  path_dirname node (ancestor node k dir) = ancestor node k dir →
  walkParents node fuel dir = noTicketsDir.
Proof.
  revert fuel dir. induction k as [| k IH]; intros fuel dir Hfuel Hnone Hroot;
    (destruct fuel as [| fuel]; [lia |]); simpl in *;
    pose proof (Hnone 0%nat ltac:(lia)) as H0; simpl in H0;
    unfold hasTickets in H0; rewrite H0.
  - apply streq_true in Hroot. by rewrite Hroot.
  - destruct (streq (path_dirname node dir) dir) eqn:Hd; [done |].
    apply IH; [lia | | done].
    intros j Hj. apply (Hnone (S j)). lia.
Qed.
End Walk.

(** C6, as the code has it: a [TICKETS_DIR] that is set to a non-empty
    string is returned as it is, whatever the file system holds; with the
    variable unset or empty the walk starts at the working directory and
    goes up parent by parent, returns [dir/.tickets] for the first [dir]
    where that exists and is a directory, and ends in the
    "no .tickets directory found" error, exit code 1, when it reaches a
    directory that is its own parent without a match.  Fuel beyond the
    number of steps walked is all the loop needs. *)
Theorem findTicketsDir_spec (node : Node) (fuel : nat) :
  (∀ s, env_TICKETS_DIR node = Some s → s ≠ [] →
     findTicketsDir node fuel = ret s)
  ∧ (env_TICKETS_DIR node = None ∨ env_TICKETS_DIR node = Some [] →
     ∀ k, (k < fuel)%nat →
       (∀ j, (j < k)%nat →
          hasTickets node (ancestor node j (cwd node)) = false) →
       (hasTickets node (ancestor node k (cwd node)) = true →
          findTicketsDir node fuel
            = ret (path_join node (ancestor node k (cwd node)) (js ".tickets")))
       ∧ (hasTickets node (ancestor node k (cwd node)) = false →
          path_dirname node (ancestor node k (cwd node))
            = ancestor node k (cwd node) →
          findTicketsDir node fuel
            = ([Stderr (js "Error: no .tickets directory found (searched parent directories)");
                Stderr (js "Run 'tk create' to initialize, or set TICKETS_DIR env var")],
               inl (Exited 1)))).
Proof.
  split.
  - intros s Henv Hs. unfold findTicketsDir. rewrite Henv. simpl.
    by destruct s.
  - intros Henv k Hfuel Hbefore.
    assert (findTicketsDir node fuel = walkParents node fuel (cwd node)) as ->.
    { unfold findTicketsDir. by destruct Henv as [-> | ->]. }
    split.
    + intros Hk. by apply walkParents_found.
    + intros Hk Hroot. rewrite (walkParents_root node k); [done | done | | done].
      intros j Hj. destruct (decide (j = k)) as [-> | Hne]; [done |].
      apply Hbefore. lia.
Qed.

Lemma findTicketsDir_spec_witness :
  findTicketsDir (demoDeep (Some (js "/srv/other/.tickets"))) 0
    = ret (js "/srv/other/.tickets")
  ∧ findTicketsDir (demoDeep None) 3 = ret (js "/tmp/t/.tickets")
  ∧ findTicketsDir demoBare 3
    = ([Stderr (js "Error: no .tickets directory found (searched parent directories)");
        Stderr (js "Run 'tk create' to initialize, or set TICKETS_DIR env var")],
       inl (Exited 1)).
Proof.
  split; [| split].
  - apply (proj1 (findTicketsDir_spec _ 0)); [reflexivity | discriminate].
  - apply (proj2 (findTicketsDir_spec (demoDeep None) 3) (or_introl eq_refl) 2%nat);
      [lia | | reflexivity].
    intros j Hj. do 2 (destruct j as [| j]; [reflexivity |]). lia.
  - apply (proj2 (findTicketsDir_spec demoBare 3) (or_introl eq_refl) 2%nat);
      [lia | | reflexivity | reflexivity].
    intros j Hj. do 2 (destruct j as [| j]; [reflexivity |]). lia.
Defined.

(** C6 as stated fails when [TICKETS_DIR] is set to the empty string: the
    variable is set, yet [if (envDir)] is false and the walk decides.  What
    the walk returns is the [.tickets] directory it found, not the
    directory that contains it. *)
Lemma empty_TICKETS_DIR_is_not_used :
  env_TICKETS_DIR (demoDeep (Some [])) = Some []
  ∧ findTicketsDir (demoDeep (Some [])) 3 = ret (js "/tmp/t/.tickets")
  ∧ findTicketsDir (demoDeep (Some [])) 3 ≠ ret []
  ∧ findTicketsDir (demoDeep None) 3 ≠ ret (js "/tmp/t").
Proof. split_and!; [reflexivity | reflexivity | discriminate | discriminate]. Qed.

(** ** Resolving an identifier *)

Lemma includes_infix (s p : jstring) :
  includes s p = true ↔ ∃ a b, s = a ++ p ++ b.
Proof.
  induction s as [| c s IH]; simpl.
  - rewrite orb_false_r, startsWith_prefix. split.
    + intros [b ->]. by exists [], b.
    + intros (a & b & H). symmetry in H.
      apply app_eq_nil in H as [-> H]. apply app_eq_nil in H as [-> ->].
      apply prefix_nil.
  - rewrite orb_true_iff, startsWith_prefix, IH. split.
    + intros [[b ->] | (a & b & ->)]; [by exists [], b | by exists (c :: a), b].
    + intros (a & b & H). destruct a as [| c' a]; simpl in H.
      * left. by exists b.
      * right. injection H as -> ->. by exists a, b.
Qed.

Lemma endsWith_suffix (s p : jstring) :
  endsWith s p = true ↔ p `suffix_of` s.
Proof.
  unfold endsWith. rewrite startsWith_prefix. symmetry. apply suffix_prefix_reverse.
Qed.

(** A match of [resolveTicket]: an entry of the directory that ends in
    [.md] and has the trimmed id somewhere in its name. *)
Lemma elem_of_ticketMatches (id f : jstring) (entries : list jstring) :
  f ∈ ticketMatches id entries
  ↔ f ∈ entries ∧ js ".md" `suffix_of` f ∧ ∃ a b, f = a ++ trim id ++ b.
Proof.
  unfold ticketMatches. rewrite list_elem_of_filter.
  rewrite Is_true_true, andb_true_iff, endsWith_suffix, includes_infix.
  tauto.
Qed.

(** C5: [resolveTicket] on a string: the exact file [<trimmed id>.md] if it
    exists; otherwise, among the entries of the directory that end in
    [.md] and contain the trimmed id, the only one if there is exactly
    one, the "not found" error if there is none and the "ambiguous" error
    if there are several, both with exit code 1.  The [--parent] value goes
    through the same function: the field receives the base name of the
    file it resolves to, and a failure of the resolution is the failure of
    the run, as it is for the ticket id. *)
Theorem resolveTicket_spec (node : Node) (ticketsDir id : jstring) :
  let exact := path_join node ticketsDir (trim id ++ js ".md") in
  (existsSync node exact = true →
     resolveTicket node ticketsDir (JStr id) = ret exact)
  ∧ (∀ entries,
       existsSync node exact = false →
       readdirSync node ticketsDir = Some entries →
       (∀ f, ticketMatches id entries = [f] →
          resolveTicket node ticketsDir (JStr id)
            = ret (path_join node ticketsDir f))
       ∧ (ticketMatches id entries = [] →
          resolveTicket node ticketsDir (JStr id)
            = ([Stderr (js "Error: ticket '" ++ id ++ js "' not found")],
               inl (Exited 1)))
       ∧ ((2 ≤ length (ticketMatches id entries))%nat →
          resolveTicket node ticketsDir (JStr id)
            = ([Stderr (js "Error: ambiguous ID '" ++ id
                        ++ js "' matches multiple tickets")],
               inl (Exited 1))))
  ∧ (∀ f entries,
       f ∈ ticketMatches id entries
       ↔ f ∈ entries ∧ js ".md" `suffix_of` f ∧ ∃ a b, f = a ++ trim id ++ b)
  ∧ (∀ st,
       amendParent node ticketsDir (JStr id) st
       = (parentFile <- resolveTicket node ticketsDir (JStr id) ;;
          ret (setField st.1 (js "parent")
                 (JStr (path_basename node parentFile (js ".md"))), true)))
  ∧ (∀ o content t h,
       Opt.parent o = JStr id →
       fmMatch content ≠ None →
       resolveTicket node ticketsDir (JStr id) = (t, inl h) →
       amend node ticketsDir o content = (t, inl h))
  ∧ (∀ fuel args o t h,
       parseArgs args = ret o →
       findTicketsDir node fuel = ret ticketsDir →
       Opt.id o = JStr id →
       resolveTicket node ticketsDir (JStr id) = (t, inl h) →
       main node fuel args = (t, inl h)).
Proof.
  intros exact. repeat apply conj.
  - intros Hex. unfold resolveTicket. fold exact. by rewrite Hex.
  - intros entries Hex Hdir.
    assert (resolveTicket node ticketsDir (JStr id)
            = let matches := ticketMatches id entries in
              if (length matches =? 1)%nat then
                ret (path_join node ticketsDir (default [] (matches !! 0%nat)))
              else if (1 <? length matches)%nat then
                (console_error (js "Error: ambiguous ID '" ++ id
                                ++ js "' matches multiple tickets") ;;;
                 process_exit 1)
              else
                (console_error (js "Error: ticket '" ++ id ++ js "' not found") ;;;
                 process_exit 1)) as ->.
    { unfold resolveTicket. fold exact. by rewrite Hex, Hdir. }
    repeat apply conj.
    + intros f ->. reflexivity.
    + intros ->. reflexivity.
    + intros Hlen. simpl.
      destruct (ticketMatches id entries) as [| f1 [| f2 l]];
        simpl in *; [lia | lia | reflexivity].
  - intros f entries. apply elem_of_ticketMatches.
  - reflexivity.
  - intros o content t h Hparent Hfm Hres. unfold amend.
    destruct (fmMatch content) as [[raw body] |]; [| done].
    unfold amendParent. rewrite Hparent, Hres. reflexivity.
  - intros fuel args o t h Hargs Hdir Hid Hres. unfold main.
    rewrite Hargs, bind_ret, Hdir, bind_ret, Hid, Hres. reflexivity.
Qed.

Lemma resolveTicket_spec_witness :
  let node := demoStore (demoTicket []) in
  let dir := js "/tmp/t/.tickets" in
  resolveTicket node dir (JStr (js " ab-1234 ")) = ret (js "/tmp/t/.tickets/ab-1234.md")
  ∧ resolveTicket node dir (JStr (js "cd")) = ret (js "/tmp/t/.tickets/cd-5678.md")
  ∧ resolveTicket node dir (JStr (js "zz-9999"))
    = ([Stderr (js "Error: ticket 'zz-9999' not found")], inl (Exited 1))
  ∧ resolveTicket node dir (JStr (js "-"))
    = ([Stderr (js "Error: ambiguous ID '-' matches multiple tickets")],
       inl (Exited 1)).
Proof.
  intros node dir. repeat apply conj.
  - apply (proj1 (resolveTicket_spec node dir (js " ab-1234 "))). reflexivity.
  - destruct (resolveTicket_spec node dir (js "cd")) as (_ & Hlist & _).
    edestruct Hlist as (Hone & _); [reflexivity | reflexivity |].
    apply (Hone (js "cd-5678.md")). reflexivity.
  - destruct (resolveTicket_spec node dir (js "zz-9999")) as (_ & Hlist & _).
    edestruct Hlist as (_ & Hnone & _); [reflexivity | reflexivity |].
    apply Hnone. reflexivity.
  - destruct (resolveTicket_spec node dir (js "-")) as (_ & Hlist & _).
    edestruct Hlist as (_ & _ & Hmany); [reflexivity | reflexivity |].
    apply Hmany. vm_compute. lia.
Defined.

(** ** Where the script writes *)

Lemma status_bind {A B} (c : M A) (k : A → M B) :
  status (bind c k)
  = match status c with inl h => inl h | inr a => status (k a) end.
Proof. destruct c as [t [h | a]]; simpl; [done |]. by destruct (k a). Qed.

Lemma writes_bind {A B} (c : M A) (k : A → M B) :
  writes (trace (bind c k))
  = writes (trace c)
    ++ match status c with inl _ => [] | inr a => writes (trace (k a)) end.
Proof.
  destruct c as [t [h | a]]; simpl.
  - by rewrite app_nil_r.
  - destruct (k a) as [t' r]. apply writes_app.
Qed.

Lemma quiet_bind {A B} (c : M A) (k : A → M B) :
  quiet c → (∀ a, quiet (k a)) → quiet (bind c k).
Proof.
  unfold quiet. intros Hc Hk. rewrite writes_bind, Hc.
  destruct (status c); [done | apply Hk].
Qed.

Lemma argLoop_quiet (args : list jstring) (o : Opt.t) : quiet (argLoop args o).
Proof.
  remember (length args) as n eqn:Hn.
  assert (length args ≤ n)%nat as Hle by lia. clear Hn.
  revert args o Hle. induction n as [| n IH]; intros [| a rest] o Hle;
    cbn [argLoop length] in *; try done; try lia.
  destruct (flagSlot a).
  - destruct rest as [| v rest']; [done |]. apply IH. cbn [length] in Hle. lia.
  - destruct (startsWith a (js "-")); [reflexivity |]. apply IH. lia.
Qed.

Lemma parseArgs_quiet (args : list jstring) : quiet (parseArgs args).
Proof.
  unfold parseArgs. repeat case_match; try done.
  apply quiet_bind; [apply argLoop_quiet |]. intros o. by case_match.
Qed.

Lemma walkParents_quiet (node : Node) (fuel : nat) (dir : jstring) :
  quiet (walkParents node fuel dir).
Proof.
  revert dir. induction fuel as [| fuel IH]; intros dir; cbn [walkParents].
  - done.
  - by repeat case_match.
Qed.

Lemma findTicketsDir_quiet (node : Node) (fuel : nat) :
  quiet (findTicketsDir node fuel).
Proof.
  unfold findTicketsDir. case_match; [done | apply walkParents_quiet].
Qed.

Lemma resolveTicket_quiet (node : Node) (ticketsDir : jstring) (id : jsval) :
  quiet (resolveTicket node ticketsDir id).
Proof. unfold resolveTicket. by repeat case_match. Qed.

Lemma amend_quiet (node : Node) (ticketsDir : jstring) (o : Opt.t)
  (content : jstring) : quiet (amend node ticketsDir o content).
Proof.
  unfold amend. destruct (fmMatch content) as [[raw body] |]; [| done].
  apply quiet_bind.
  { unfold amendParent. case_match; [| done].
    apply quiet_bind; [apply resolveTicket_quiet | done]. }
  intros st. apply quiet_bind.
  { unfold amendTags. by repeat case_match. }
  intros st'. by repeat case_match.
Qed.

(** C7: a run that ends in any way other than normally has written
    nothing; a run that ends normally has written exactly one file, the
    ticket file, with the complete output of the amendments; and a run
    whose arguments leave all seven option variables [null], with the
    directory, the ticket and its frontmatter found, ends with
    "Nothing to amend", exit code 1, and so without a write. *)
Theorem no_write_without_success (node : Node) (fuel : nat)
  (args : list jstring) :
  (status (main node fuel args) ≠ inr tt →
     writes (trace (main node fuel args)) = [])
  ∧ (status (main node fuel args) = inr tt →
     ∃ o ticketsDir ticketFile content output,
       status (parseArgs args) = inr o
       ∧ status (findTicketsDir node fuel) = inr ticketsDir
       ∧ status (resolveTicket node ticketsDir (Opt.id o)) = inr ticketFile
       ∧ readFileSync node ticketFile = Some content
       ∧ status (amend node ticketsDir o content) = inr output
       ∧ writes (trace (main node fuel args)) = [(ticketFile, output)])
  ∧ (∀ o ticketsDir ticketFile content,
       parseArgs args = ret o →
       noMutation o →
       findTicketsDir node fuel = ret ticketsDir →
       resolveTicket node ticketsDir (Opt.id o) = ret ticketFile →
       readFileSync node ticketFile = Some content →
       fmMatch content ≠ None →
       main node fuel args
         = ([Stderr (js "Nothing to amend (no options provided)")],
            inl (Exited 1))).
Proof.
  assert (∀ r : halt + (),
    status (main node fuel args) = r →
    match r with
    | inl _ => writes (trace (main node fuel args)) = []
    | inr _ => ∃ o ticketsDir ticketFile content output,
       status (parseArgs args) = inr o
       ∧ status (findTicketsDir node fuel) = inr ticketsDir
       ∧ status (resolveTicket node ticketsDir (Opt.id o)) = inr ticketFile
       ∧ readFileSync node ticketFile = Some content
       ∧ status (amend node ticketsDir o content) = inr output
       ∧ writes (trace (main node fuel args)) = [(ticketFile, output)]
    end) as Hmain.
  { intros r. unfold main.
    rewrite !status_bind, !writes_bind.
    rewrite (parseArgs_quiet args).
    destruct (status (parseArgs args)) as [h | o] eqn:Ho; [by intros <- |].
    cbv beta. rewrite !status_bind, !writes_bind, (findTicketsDir_quiet node fuel).
    destruct (status (findTicketsDir node fuel)) as [h | ticketsDir] eqn:Hd;
      [by intros <- |].
    cbv beta. rewrite !status_bind, !writes_bind, (resolveTicket_quiet node).
    destruct (status (resolveTicket node ticketsDir (Opt.id o)))
      as [h | ticketFile] eqn:Hf; [by intros <- |].
    cbv beta. destruct (readFileSync node ticketFile) as [content |] eqn:Hc;
      cbn [from_option]; [| by intros <-].
    rewrite bind_ret.
    rewrite !status_bind, !writes_bind, (amend_quiet node).
    destruct (status (amend node ticketsDir o content)) as [h | output] eqn:Ha;
      [by intros <- |].
    cbv beta. rewrite !status_bind, !writes_bind.
    unfold writeFileSync. destruct (canWrite node ticketFile); [| by intros <-].
    intros <-. cbn. eauto 12. }
  split; [| split].
  - intros Hne. specialize (Hmain _ eq_refl).
    destruct (status (main node fuel args)) as [h | []]; done.
  - intros Heq. specialize (Hmain _ Heq). done.
  - intros o ticketsDir ticketFile content Ho Hnone Hd Hf Hc Hfm.
    unfold main. rewrite Ho, bind_ret, Hd, bind_ret, Hf, bind_ret, Hc.
    cbn [from_option]. rewrite bind_ret.
    assert (amend node ticketsDir o content
            = ([Stderr (js "Nothing to amend (no options provided)")],
               inl (Exited 1))) as ->; [| done].
    unfold amend. destruct (fmMatch content) as [[raw body] |]; [| done].
    pose proof (Hnone Description) as H1. pose proof (Hnone Type_) as H2.
    pose proof (Hnone Priority) as H3. pose proof (Hnone Assignee) as H4.
    pose proof (Hnone ExternalRef) as H5. pose proof (Hnone Parent) as H6.
    pose proof (Hnone Tags) as H7. cbn [slotValue] in *.
    unfold amendScalar, amendParent, amendTags, amendDescription.
    rewrite H1, H2, H3, H4, H5, H6, H7. reflexivity.
Qed.

Lemma no_write_without_success_witness :
  let node := demoStore (demoTicket []) in
  main node 0 [js "ab-1234"]
    = ([Stderr (js "Nothing to amend (no options provided)")], inl (Exited 1))
  ∧ writes (trace (main node 0 [js "ab-1234"; js "--parent"; js "zz"])) = []
  ∧ ∃ output,
      writes (trace (main node 0 [js "ab-1234"; js "-t"; js "bug"]))
        = [(js "/tmp/t/.tickets/ab-1234.md", output)].
Proof.
  intros node. split; [| split].
  - apply (proj2 (proj2 (no_write_without_success node 0 [js "ab-1234"]))
             (Opt.mk (JStr (js "ab-1234")) JNull JNull JNull JNull JNull JNull JNull)
             (js "/tmp/t/.tickets") (js "/tmp/t/.tickets/ab-1234.md")
             (demoTicket []));
      try reflexivity; [by intros [] | discriminate].
  - apply (proj1 (no_write_without_success node 0 _)). discriminate.
  - destruct (proj1 (proj2 (no_write_without_success node 0
                       [js "ab-1234"; js "-t"; js "bug"])) eq_refl)
      as (o & ticketsDir & ticketFile & content & output & Ho & Hd & Hf & _ & _ & Hw).
    exists output. rewrite Hw.
    vm_compute in Ho. injection Ho as <-.
    vm_compute in Hd. injection Hd as <-.
    vm_compute in Hf. injection Hf as <-. reflexivity.
Defined.

(** ** Trimming *)

Lemma trimEnd_snoc_space (s : jstring) (c : N) :
  isWhiteSpace c = true → trimEnd (s ++ [c]) = trimEnd s.
Proof.
  intros Hc. unfold trimEnd. rewrite reverse_snoc. cbn [trimStart].
  by rewrite Hc.
Qed.

Lemma trimEnd_snoc_other (s : jstring) (c : N) :
  isWhiteSpace c = false → trimEnd (s ++ [c]) = s ++ [c].
Proof.
  intros Hc. unfold trimEnd. rewrite reverse_snoc. cbn [trimStart].
  rewrite Hc. by rewrite reverse_cons, reverse_involutive.
Qed.

Lemma trimEnd_idemp (s : jstring) : trimEnd (trimEnd s) = trimEnd s.
Proof.
  induction s as [| c s IH] using rev_ind; [done |].
  destruct (isWhiteSpace c) eqn:Hc.
  - by rewrite !trimEnd_snoc_space.
  - by rewrite !trimEnd_snoc_other.
Qed.

(** ** Splitting and joining *)

Lemma split_nonempty (sep : N) (s : jstring) : split sep s ≠ [].
Proof. destruct s as [| c s]; simpl; [done |]. by repeat case_match. Qed.

Lemma split_no_sep (sep : N) (s : jstring) : sep ∉ s → split sep s = [s].
Proof.
  induction s as [| c s IH]; intros Hs; simpl; [done |].
  apply not_elem_of_cons in Hs as [Hc Hs].
  destruct (N.eqb_spec c sep) as [-> | _]; [done |]. by rewrite IH.
Qed.

Lemma split_app_sep (sep : N) (a b : jstring) :
  sep ∉ a → split sep (a ++ sep :: b) = a :: split sep b.
Proof.
  induction a as [| c a IH]; intros Ha; simpl.
  - by rewrite N.eqb_refl.
  - apply not_elem_of_cons in Ha as [Hc Ha].
    destruct (N.eqb_spec c sep) as [-> | _]; [done |]. by rewrite IH.
Qed.

Lemma join_cons (sep x : jstring) (l : list jstring) :
  l ≠ [] → join sep (x :: l) = x ++ sep ++ join sep l.
Proof. by destruct l. Qed.

(** A joined list reads [x1 sep x2 sep ... xn]. *)
Lemma join_concat (sep x : jstring) (l : list jstring) :
  join sep (x :: l) = x ++ concat ((λ y, sep ++ y) <$> l).
Proof.
  revert x. induction l as [| y l IH]; intros x.
  - simpl. by rewrite app_nil_r.
  - rewrite join_cons by done. rewrite IH. simpl. by rewrite <- app_assoc.
Qed.

(** ** Trimming, continued *)

Lemma trimStart_spaces (ws s : jstring) :
  Forall (λ c, isWhiteSpace c = true) ws → trimStart (ws ++ s) = trimStart s.
Proof. induction 1 as [| c ws Hc _ IH]; simpl; [done |]. by rewrite Hc. Qed.

Lemma trimStart_trimEnd_nonspace (s : jstring) : 
  trimStart (trimEnd s) = trimEnd (trimStart s).
Proof.
  induction s as [| c s IH] using rev_ind; [done |].
  destruct (isWhiteSpace c) eqn:Hc.
  - rewrite trimEnd_snoc_space by done. rewrite IH.
    clear IH. induction s as [| d s IH]; simpl.
    + by rewrite Hc.
    + destruct (isWhiteSpace d) eqn:Hd; [done |].
      change (d :: s ++ [c]) with ((d :: s) ++ [c]).
      by rewrite trimEnd_snoc_space.
  - rewrite trimEnd_snoc_other by done. clear IH.
    induction s as [| d s IH]; simpl.
    + rewrite Hc. unfold trimEnd. cbn. by rewrite Hc.
    + destruct (isWhiteSpace d) eqn:Hd; [done |].
      change (d :: s ++ [c]) with ((d :: s) ++ [c]).
      by rewrite trimEnd_snoc_other.
Qed.

Lemma trimStart_idemp (s : jstring) : trimStart (trimStart s) = trimStart s.
Proof.
  induction s as [| c s IH]; simpl; [done |].
  destruct (isWhiteSpace c) eqn:Hc; [done |]. simpl. by rewrite Hc.
Qed.

Lemma trim_idemp (s : jstring) : trim (trim s) = trim s.
Proof.
  unfold trim. rewrite trimStart_trimEnd_nonspace, trimStart_idemp.
  apply trimEnd_idemp.
Qed.

Lemma trim_spaces (ws s : jstring) :
  Forall (λ c, isWhiteSpace c = true) ws → trim (ws ++ s) = trim s.
Proof. intros H. unfold trim. by rewrite trimStart_spaces. Qed.

(** ** The field list *)

Lemma setField_nil (key : jstring) (v : jsval) :
  setField [] key v = [Field key v].
Proof. reflexivity. Qed.

Lemma setField_cons (f : entry) (fields : list entry) (key : jstring) (v : jsval) :
  setField (f :: fields) key v
  = if decide (hasKey key f) then setValue v f :: fields
    else f :: setField fields key v.
Proof.
  unfold setField. cbn [list_find]. case_decide; [done |].
  by destruct (list_find (hasKey key) fields) as [[i x] |].
Qed.

Lemma getField_cons (f : entry) (fields : list entry) (key : jstring) :
  getField (f :: fields) key
  = if decide (hasKey key f)
    then match f with Field _ v => v | Raw _ => JUndefined end
    else getField fields key.
Proof.
  unfold getField. cbn [list_find]. case_decide; [done |].
  by destruct (list_find (hasKey key) fields) as [[i x] |].
Qed.

Lemma hasKey_Field (key k : jstring) (v : jsval) :
  hasKey key (Field k v) ↔ k = key.
Proof. unfold hasKey. simpl. split; congruence. Qed.

Lemma hasKey_Raw (key r : jstring) : ¬ hasKey key (Raw r).
Proof. unfold hasKey. simpl. congruence. Qed.

(** After [setField(key, value)], [getField(key)] is [value]. *)
Lemma getField_setField (fields : list entry) (key : jstring) (v : jsval) :
  getField (setField fields key v) key = v.
Proof.
  induction fields as [| f fields IH].
  - rewrite setField_nil, getField_cons. rewrite decide_True; [done |].
    by apply hasKey_Field.
  - rewrite setField_cons. case_decide as Hf.
    + destruct f as [k w | r]; [| by apply hasKey_Raw in Hf].
      rewrite getField_cons, decide_True; [done |]. done.
    + by rewrite getField_cons, decide_False.
Qed.

(** Writing back the value a field already has changes nothing. *)
Lemma setField_same (fields : list entry) (key x : jstring) :
  getField fields key = JStr x → setField fields key (JStr x) = fields.
Proof.
  induction fields as [| f fields IH]; [done |].
  rewrite getField_cons, setField_cons. case_decide as Hf.
  - destruct f as [k w | r]; [| done]. by intros ->.
  - intros H. by rewrite IH.
Qed.

(** ** Tags *)

Lemma stripBrackets_encodeTags (l : list jstring) :
  stripBrackets (encodeTags l) = join (js ", ") l.
Proof.
  unfold encodeTags, stripBrackets.
  change (js "[") with [91]. change (js "]") with [93]. cbn [app].
  by rewrite reverse_snoc, reverse_involutive.
Qed.

Lemma parseTags_spaces_join (ws : jstring) (l : list jstring) :
  Forall (λ c, isWhiteSpace c = true) ws →
  Forall wellFormedTag l → l ≠ [] →
  parseTags (ws ++ join (js ", ") l) = l.
Proof.
  intros Hws Hl. revert ws Hws.
  induction Hl as [| x l (Hne & Htrim & Hcomma) Hl IH]; intros ws Hws Hnil; [done |].
  assert (44 ∉ ws ++ x) as Hfree.
  { rewrite elem_of_app. intros [H | H]; [| done].
    rewrite list.Forall_forall in Hws. by apply Hws in H. }
  destruct l as [| y l].
  - unfold parseTags. cbn [join]. rewrite split_no_sep by done.
    cbn [fmap list_fmap]. rewrite trim_spaces, Htrim by done.
    rewrite filter_cons_True by done. done.
  - rewrite join_cons by done. change (js ", ") with ([44] ++ [32]).
    unfold parseTags.
    rewrite <- !app_assoc. rewrite (app_assoc ws x). cbn [app].
    rewrite split_app_sep by done. cbn [fmap list_fmap].
    rewrite trim_spaces, Htrim by done. rewrite filter_cons_True by done.
    f_equal. apply (IH [32]); [by repeat constructor | done].
Qed.

(** Decoding the encoding of a list of well-formed tags gives the list. *)
Lemma parseTags_encodeTags (l : list jstring) :
  Forall wellFormedTag l → parseTags (stripBrackets (encodeTags l)) = l.
Proof.
  intros Hl. rewrite stripBrackets_encodeTags. destruct l as [| x l]; [done |].
  by apply (parseTags_spaces_join [] (x :: l)).
Qed.

Lemma parseTags_trimmed (s : jstring) :
  Forall (λ t, t ≠ [] ∧ trim t = t) (parseTags s).
Proof.
  unfold parseTags. apply list.Forall_forall. intros t Ht.
  apply list_elem_of_filter in Ht as [Hne Ht]. split; [done |].
  apply list_elem_of_fmap in Ht as (u & -> & _). apply trim_idemp.
Qed.

Lemma pushNew_present (l : list jstring) (t : jstring) :
  t ∈ l → pushNew l t = l.
Proof. intros H. unfold pushNew. by rewrite (proj2 (arrIncludes_true l t)). Qed.

Lemma pushNew_fresh (l : list jstring) (t : jstring) :
  t ∉ l → pushNew l t = l ++ [t].
Proof. intros H. unfold pushNew. by rewrite (proj2 (arrIncludes_false l t)). Qed.

Lemma foldl_pushNew_present (l news : list jstring) :
  (∀ t, t ∈ news → t ∈ l) → foldl pushNew l news = l.
Proof.
  induction news as [| t news IH]; intros H; simpl; [done |].
  rewrite pushNew_present by (apply H; left). apply IH.
  intros u Hu. apply H. by right.
Qed.

Lemma foldl_pushNew_fresh (l news : list jstring) :
  NoDup news → (∀ t, t ∈ news → t ∉ l) → foldl pushNew l news = l ++ news.
Proof.
  intros Hnd. revert l. induction Hnd as [| t news Ht Hnd IH]; intros l H; simpl.
  - by rewrite app_nil_r.
  - rewrite pushNew_fresh by (apply H; left). rewrite IH.
    + by rewrite <- app_assoc.
    + intros u Hu. rewrite elem_of_app, list_elem_of_singleton.
      intros [Hl | ->]; [| done]. by apply (H u); [right |].
Qed.

(** The loop over [newTags] in general: the list it starts from stays as
    it is, and what is added are the new tokens not in it yet, once each
    and in their order. *)
Lemma foldl_pushNew_spec (old news : list jstring) :
  ∃ added, foldl pushNew old news = old ++ added
    ∧ NoDup added
    ∧ (∀ t, t ∈ added ↔ t ∈ news ∧ t ∉ old)
    ∧ added `sublist_of` news.
Proof.
  revert old. induction news as [| t news IH]; intros old; simpl.
  - exists []. rewrite app_nil_r. split_and!; [done | apply NoDup_nil_2 | | done].
    intros t. rewrite elem_of_nil. tauto.
  - destruct (decide (t ∈ old)) as [Hin | Hout].
    + rewrite pushNew_present by done.
      destruct (IH old) as (added & Heq & Hnd & Hmem & Hsub).
      exists added. split_and!; [done | done | | by apply sublist_cons].
      intros x. rewrite Hmem, elem_of_cons. split; [tauto |].
      intros [[-> | Hx] Hn]; done.
    + rewrite pushNew_fresh by done.
      destruct (IH (old ++ [t])) as (added & Heq & Hnd & Hmem & Hsub).
      exists (t :: added). split_and!.
      * by rewrite Heq, <- app_assoc.
      * apply NoDup_cons_2; [| done]. intros [_ Ht]%Hmem. apply Ht.
        rewrite elem_of_app, list_elem_of_singleton. by right.
      * intros x. rewrite !elem_of_cons, Hmem, elem_of_app, list_elem_of_singleton.
        destruct (decide (x = t)) as [-> | Hne]; [| tauto].
        split; [intros _; split; [by left | done] | intros _; by left].
      * by apply sublist_skip.
Qed.

Lemma amendTags_merged (fields : list entry) (input : jstring) (changed : bool) :
  amendTags (JStr input) (fields, changed)
  = ret (setField fields (js "tags")
           (JStr (encodeTags (mergedTags (getField fields (js "tags")) input))),
         true).
Proof. reflexivity. Qed.

Lemma mergedTags_encoded (l : list jstring) (input : jstring) :
  Forall wellFormedTag l →
  mergedTags (JStr (encodeTags l)) input = foldl pushNew l (parseTags input).
Proof.
  intros Hl. unfold mergedTags. cbn [toString].
  rewrite parseTags_encodeTags by done. reflexivity.
Qed.

(** C3: on a ticket whose [tags] value is the bracketed encoding of a list
    of tags, an append whose tokens are all in the list leaves the field
    list as it is, and an append of distinct tokens none of which is in
    the list sets the value to the encoding of the list followed by those
    tokens in input order; [tags: [backend, api]] with input
    [api,frontend] becomes [tags: [backend, api, frontend]]. *)
Theorem tags_append_idempotent (fields : list entry) (l : list jstring)
  (input : jstring) (changed : bool) :
  Forall wellFormedTag l →
  getField fields (js "tags") = JStr (encodeTags l) →
  ((∀ t, t ∈ parseTags input → t ∈ l) →
     amendTags (JStr input) (fields, changed) = ret (fields, true))
  ∧ (NoDup (parseTags input) → (∀ t, t ∈ parseTags input → t ∉ l) →
     let fields' :=
       setField fields (js "tags") (JStr (encodeTags (l ++ parseTags input))) in
     amendTags (JStr input) (fields, changed) = ret (fields', true)
     ∧ getField fields' (js "tags") = JStr (encodeTags (l ++ parseTags input)))
  ∧ amendTags (JStr (js "api,frontend"))
      ([Field (js "id") (JStr (js "ab-1234"));
        Field (js "tags") (JStr (js "[backend, api]"))], changed)
    = ret ([Field (js "id") (JStr (js "ab-1234"));
            Field (js "tags") (JStr (js "[backend, api, frontend]"))], true).
Proof.
  intros Hl Htags. split_and!.
  - intros Hin. rewrite amendTags_merged, Htags, mergedTags_encoded by done.
    rewrite foldl_pushNew_present by done. by rewrite setField_same.
  - intros Hnd Hout fields'. split; [| apply getField_setField].
    rewrite amendTags_merged, Htags, mergedTags_encoded by done.
    by rewrite foldl_pushNew_fresh.
  - reflexivity.
Qed.

Lemma tags_append_idempotent_witness :
  let fields := [Field (js "id") (JStr (js "ab-1234"));
                 Field (js "tags") (JStr (js "[backend, api]"))] in
  amendTags (JStr (js " api , backend,api")) (fields, false) = ret (fields, true)
  ∧ amendTags (JStr (js "frontend, urgent")) (fields, false)
    = ret ([Field (js "id") (JStr (js "ab-1234"));
            Field (js "tags") (JStr (js "[backend, api, frontend, urgent]"))],
           true).
Proof.
  intros fields. split.
  - apply (proj1 (tags_append_idempotent fields [js "backend"; js "api"]
                    (js " api , backend,api") false ltac:(by_compute) eq_refl)).
    apply list.Forall_forall. by_compute.
  - apply (proj1 (proj2 (tags_append_idempotent fields [js "backend"; js "api"]
                    (js "frontend, urgent") false ltac:(by_compute) eq_refl)));
      [by_compute | apply list.Forall_forall; by_compute].
Defined.

(** C4, as the code has it: the stored value is split into its trimmed,
    non-empty tokens and that sequence is kept as it is, duplicates
    included; the tokens of the input that are not in it are added after
    it, once each and in input order; the result is written back as
    [[t1, t2, ...]], the empty list as [[]]. *)
Theorem tags_merge_keeps_stored_list (fields : list entry) (input : jstring)
  (changed : bool) :
  let existing := getField fields (js "tags") in
  let old := if truthy existing
             then parseTags (stripBrackets (toString existing)) else [] in
  ∃ added,
    amendTags (JStr input) (fields, changed)
      = ret (setField fields (js "tags") (JStr (encodeTags (old ++ added))), true)
    ∧ getField (setField fields (js "tags") (JStr (encodeTags (old ++ added))))
               (js "tags")
      = JStr (encodeTags (old ++ added))
    ∧ Forall (λ t, t ≠ [] ∧ trim t = t) (old ++ added)
    ∧ NoDup added
    ∧ (∀ t, t ∈ added ↔ t ∈ parseTags input ∧ t ∉ old)
    ∧ added `sublist_of` parseTags input
    ∧ (∀ t, t ∈ old →
         filter (λ x, x = t) (old ++ added) = filter (λ x, x = t) old)
    ∧ encodeTags [] = js "[]"
    ∧ (∀ x l, encodeTags (x :: l)
              = js "[" ++ x ++ concat ((λ y, js ", " ++ y) <$> l) ++ js "]").
Proof.
  intros existing old.
  destruct (foldl_pushNew_spec old (parseTags input))
    as (added & Heq & Hnd & Hmem & Hsub).
  exists added. split_and!; try done.
  - rewrite amendTags_merged. unfold mergedTags. fold existing. fold old.
    by rewrite Heq.
  - apply getField_setField.
  - apply Forall_app. split.
    + subst old. destruct (truthy existing); [apply parseTags_trimmed | constructor].
    + apply list.Forall_forall. intros t [Ht _]%Hmem.
      pose proof (parseTags_trimmed input) as Hall.
      rewrite list.Forall_forall in Hall. by apply Hall.
  - intros t Ht. rewrite list.filter_app.
    assert (filter (λ x, x = t) added = []) as ->; [| by rewrite app_nil_r].
    assert (t ∉ added) as Hout by (by intros [_ Hout]%Hmem).
    clear -Hout. induction added as [| x added IH]; [done |].
    apply not_elem_of_cons in Hout as [Hne Hout].
    rewrite filter_cons_False by congruence. by apply IH.
  - intros x l. unfold encodeTags. by rewrite join_concat, <- app_assoc.
Qed.

Lemma tags_merge_keeps_stored_list_witness :
  let fields := [Field (js "tags") (JStr (js "[a, a]"))] in
  ∃ added,
    amendTags (JStr (js "b, a, c, b")) (fields, false)
      = ret (setField fields (js "tags")
               (JStr (encodeTags ([js "a"; js "a"] ++ added))), true)
    ∧ NoDup added
    ∧ added `sublist_of` [js "b"; js "a"; js "c"; js "b"].
Proof.
  intros fields.
  destruct (tags_merge_keeps_stored_list fields (js "b, a, c, b") false)
    as (added & Hrun & _ & _ & Hnd & _ & Hsub & _).
  exists added. split_and!; [exact Hrun | exact Hnd | exact Hsub].
Defined.

(** C4 as stated fails on a stored list that holds a tag twice: the
    existing tokens are not deduplicated. *)
Lemma stored_duplicate_tag_is_kept :
  amendTags (JStr (js "b")) ([Field (js "tags") (JStr (js "[a, a]"))], false)
    = ret ([Field (js "tags") (JStr (js "[a, a, b]"))], true)
  ∧ mergedTags (JStr (js "[a, a]")) (js "b") = [js "a"; js "a"; js "b"]
  ∧ ¬ NoDup (mergedTags (JStr (js "[a, a]")) (js "b")).
Proof. split_and!; [reflexivity | reflexivity | by_compute]. Qed.

(** ** Frontmatter lines *)

Lemma spanClass_app (p : N → bool) (s a b : jstring) :
  spanClass p s = (a, b) → s = a ++ b.
Proof.
  revert a b. induction s as [| c s IH]; intros a b; simpl.
  - by intros [= <- <-].
  - destruct (p c); [| by intros [= <- <-]].
    destruct (spanClass p s) as [a' b']. intros [= <- <-].
    by rewrite (IH a' b').
Qed.

(** A recognized line is its key, a colon, at most one space, its value. *)
Lemma matchLine_Some (line k x : jstring) :
  matchLine line = Some (k, x) →
  line = k ++ js ": " ++ x ∨ line = k ++ js ":" ++ x.
Proof.
  unfold matchLine. destruct line as [| c rest]; [done |].
  destruct (isLower c); [| done].
  destruct (spanClass isKeyChar rest) as [k0 r] eqn:Hspan.
  apply spanClass_app in Hspan as ->.
  destruct r as [| colon r1]; [done |].
  destruct (N.eqb_spec colon 58) as [-> | _]; [| done].
  case_match; [| done]. intros [= <- <-].
  change (js ": ") with [58; 32]. change (js ":") with [58].
  destruct r1 as [| sp r2]; [by right |].
  destruct (N.eqb_spec sp 32) as [-> | _]; [by left | by right].
Qed.

Lemma render_parseLine (line : jstring) :
  match matchLine line with
  | None => render (parseLine line) = line
  | Some (k, x) =>
      render (parseLine line) = k ++ js ": " ++ x
      ∧ (line = k ++ js ": " ++ x ∨ line = k ++ js ":" ++ x)
  end.
Proof.
  unfold parseLine. destruct (matchLine line) as [[k x] |] eqn:Hm; [| done].
  split; [done | by apply matchLine_Some].
Qed.

(** ** [setField] leaves the other entries alone *)

Lemma setField_found (fields : list entry) (key : jstring) (v : jsval)
  (idx : nat) (f : entry) :
  list_find (hasKey key) fields = Some (idx, f) →
  setField fields key v = <[idx := Field key v]> fields.
Proof.
  intros Hfind. unfold setField. rewrite Hfind.
  apply list_find_Some in Hfind as (Hidx & Hkey & _).
  destruct f as [k w | r]; [| by apply hasKey_Raw in Hkey].
  apply hasKey_Field in Hkey as ->.
  apply list_eq. intros j. destruct (decide (j = idx)) as [-> | Hne].
  - rewrite list_lookup_alter_eq, Hidx.
    rewrite list_lookup_insert_eq by (by eapply lookup_lt_Some). done.
  - by rewrite list_lookup_alter_ne, list_lookup_insert_ne.
Qed.

Lemma setField_absent (fields : list entry) (key : jstring) (v : jsval) :
  list_find (hasKey key) fields = None →
  setField fields key v = fields ++ [Field key v].
Proof. intros Hfind. unfold setField. by rewrite Hfind. Qed.

(** Every entry but the one [setField] picks stays where and what it is. *)
Lemma setField_lookup_other (fields : list entry) (key : jstring) (v : jsval)
  (i : nat) (f : entry) :
  fields !! i = Some f →
  (∀ g, list_find (hasKey key) fields ≠ Some (i, g)) →
  setField fields key v !! i = Some f.
Proof.
  intros Hi Hother.
  destruct (list_find (hasKey key) fields) as [[idx g] |] eqn:Hfind.
  - rewrite (setField_found _ _ _ _ _ Hfind).
    rewrite list_lookup_insert_ne; [done |]. intros ->. by apply (Hother g).
  - rewrite (setField_absent _ _ _ Hfind). by apply lookup_app_l_Some.
Qed.

Lemma amendScalar_null (key : jstring) (st : list entry * bool) :
  amendScalar key JNull st = st.
Proof. reflexivity. Qed.

Lemma amendScalar_set (key : jstring) (v : jsval) (st : list entry * bool) :
  v ≠ JNull → amendScalar key v st = (setField st.1 key v, true).
Proof. intros Hv. unfold amendScalar. by destruct v. Qed.

(** A run with one scalar option and nothing else. *)
Lemma amend_scalar_only (node : Node) (ticketsDir : jstring) (s : slot)
  (key : jstring) (v : jsval) (o : Opt.t) (content raw body : jstring) :
  (s, key) ∈ scalarKeys →
  v ≠ JNull →
  slotValue s o = v →
  (∀ s', s' ≠ s → slotValue s' o = JNull) →
  fmMatch content = Some (raw, body) →
  amend node ticketsDir o content
  = ret (serialize (setField (parseFrontmatter raw) key v) body).
Proof.
  intros Hs Hv Hval Hnull Hfm. unfold amend. rewrite Hfm.
  pose proof (Hnull Description) as Hd. pose proof (Hnull Type_) as Ht.
  pose proof (Hnull Priority) as Hp. pose proof (Hnull Assignee) as Ha.
  pose proof (Hnull ExternalRef) as He. pose proof (Hnull Parent) as Hpa.
  pose proof (Hnull Tags) as Htg. cbn [slotValue] in *.
  unfold scalarKeys in Hs.
  repeat (apply elem_of_cons in Hs as [[= -> ->] | Hs]);
    [.. | by apply elem_of_nil in Hs];
    cbn [slotValue] in Hval; rewrite Hval;
    rewrite ?Hd, ?Ht, ?Hp, ?Ha, ?He, ?Hpa, ?Htg by done;
    rewrite ?amendScalar_null, (amendScalar_set _ v) by done;
    reflexivity.
Qed.

(** C2, as the code has it: with one scalar option and a valid ticket, the
    text written back is the delimiter, the rendered entries, the
    delimiter and the body exactly as it was read; the entries are those
    parsed, with the value of the first entry of that key replaced, or a
    new entry at the end when there is none.  Every other line at its
    place: an unrecognized line verbatim, a recognized line as its key, a
    colon, one space and its value, which is the line itself unless the
    line had no space after the colon. *)
Theorem scalar_replace_frame (node : Node) (ticketsDir : jstring) (s : slot)
  (key : jstring) (v : jsval) (o : Opt.t) (content raw body : jstring) :
  (s, key) ∈ scalarKeys →
  v ≠ JNull →
  slotValue s o = v →
  (∀ s', s' ≠ s → slotValue s' o = JNull) →
  fmMatch content = Some (raw, body) →
  let fields := parseFrontmatter raw in
  let fields' := setField fields key v in
  amend node ticketsDir o content
    = ret (js "---" ++ [LF] ++ join [LF] (render <$> fields')
           ++ [LF] ++ js "---" ++ [LF] ++ body)
  ∧ getField fields' key = v
  ∧ match list_find (hasKey key) fields with
    | Some (idx, _) => fields' = <[idx := Field key v]> fields
    | None => fields' = fields ++ [Field key v]
    end
  ∧ ∀ i line,
      split LF raw !! i = Some line →
      (∀ f, list_find (hasKey key) fields ≠ Some (i, f)) →
      match matchLine line with
      | None => (render <$> fields') !! i = Some line
      | Some (k, x) =>
          (render <$> fields') !! i = Some (k ++ js ": " ++ x)
          ∧ (line = k ++ js ": " ++ x ∨ line = k ++ js ":" ++ x)
      end.
Proof.
  intros Hs Hv Hval Hnull Hfm fields fields'. split_and!.
  - by rewrite (amend_scalar_only node ticketsDir s key v o content raw body).
  - apply getField_setField.
  - subst fields'.
    destruct (list_find (hasKey key) fields) as [[idx f] |] eqn:Hfind.
    + by eapply setField_found.
    + by apply setField_absent.
  - intros i line Hline Hother.
    assert ((render <$> fields') !! i = Some (render (parseLine line))) as ->.
    { rewrite list_lookup_fmap. subst fields'.
      erewrite setField_lookup_other; [done | | done].
      subst fields. unfold parseFrontmatter. by rewrite list_lookup_fmap, Hline. }
    pose proof (render_parseLine line) as Hr.
    destruct (matchLine line) as [[k x] |]; [| by rewrite Hr].
    destruct Hr as [-> Hr]. done.
Qed.

Lemma scalar_replace_frame_witness :
  amend (demoStore (demoTicket [])) (js "/tmp/t/.tickets")
    (Opt.mk (JStr (js "ab-1234")) JNull (JStr (js "bug")) JNull JNull JNull
            JNull JNull)
    (demoTicket [])
  = ret (js "---
id: ab-1234
status: open
deps: []
links: []
created: 2026-01-01T00:00:00Z
type: bug
priority: 2
assignee: Alice
---
# Test ticket

Original description
").
Proof.
  edestruct (scalar_replace_frame (demoStore (demoTicket []))
               (js "/tmp/t/.tickets") Type_ (js "type") (JStr (js "bug"))
               (Opt.mk (JStr (js "ab-1234")) JNull (JStr (js "bug")) JNull
                       JNull JNull JNull JNull)
               (demoTicket [])) as (Hout & _);
    [by_compute | discriminate | reflexivity | by intros [] | reflexivity |].
  rewrite Hout. reflexivity.
Defined.

(** C2 as stated fails on a recognized line written without the space
    after the colon: [id:x] is not the field replaced, and comes back as
    [id: x]. *)
Lemma unspaced_field_line_is_rewritten :
  let content := js "---" ++ [LF] ++ js "id:x" ++ [LF] ++ js "type: task"
                 ++ [LF] ++ js "---" ++ [LF] ++ js "B" in
  let o := Opt.mk (JStr (js "x")) JNull (JStr (js "bug")) JNull JNull JNull
                  JNull JNull in
  fmMatch content = Some (js "id:x" ++ [LF] ++ js "type: task", js "B")
  ∧ amend (demoStore content) (js "/tmp/t/.tickets") o content
    = ret (js "---" ++ [LF] ++ js "id: x" ++ [LF] ++ js "type: bug"
           ++ [LF] ++ js "---" ++ [LF] ++ js "B")
  ∧ amend (demoStore content) (js "/tmp/t/.tickets") o content
    ≠ ret (js "---" ++ [LF] ++ js "id:x" ++ [LF] ++ js "type: bug"
           ++ [LF] ++ js "---" ++ [LF] ++ js "B").
Proof. split_and!; [reflexivity | reflexivity | discriminate]. Qed.

(** ** Reading back what was written *)

Lemma split_app (c : N) (a x : jstring) :
  split c (a ++ c :: x) = split c a ++ split c x.
Proof.
  induction a as [| e a IH]; simpl.
  - by rewrite N.eqb_refl.
  - destruct (e =? c); rewrite IH; [done |].
    pose proof (split_nonempty c a) as Hne. by destruct (split c a).
Qed.

Lemma join_cons_head (sep : jstring) (e : N) (h : jstring) (t : list jstring) :
  join sep ((e :: h) :: t) = e :: join sep (h :: t).
Proof. by destruct t. Qed.

Lemma join_split (c : N) (s : jstring) : join [c] (split c s) = s.
Proof.
  induction s as [| e s IH]; simpl; [done |].
  pose proof (split_nonempty c s) as Hne.
  destruct (N.eqb_spec e c) as [-> | _].
  - rewrite join_cons by done. by rewrite IH.
  - destruct (split c s) as [| h t]; [done |].
    by rewrite join_cons_head, IH.
Qed.

Lemma split_join (c : N) (L : list jstring) :
  Forall (λ l, c ∉ l) L → L ≠ [] → split c (join [c] L) = L.
Proof.
  induction 1 as [| x L Hx HL IH]; intros Hne; [done |].
  destruct L as [| y L]; [by apply split_no_sep |].
  rewrite join_cons by done. cbn [app]. rewrite split_app_sep by done.
  by rewrite IH.
Qed.

Lemma split_sep_free (c : N) (s : jstring) : Forall (λ l, c ∉ l) (split c s).
Proof.
  induction s as [| e s IH]; simpl.
  - repeat constructor. apply not_elem_of_nil.
  - destruct (N.eqb_spec e c) as [-> | Hne].
    + constructor; [apply not_elem_of_nil | done].
    + destruct (split c s) as [| h t]; inversion IH; subst.
      * repeat constructor. rewrite list_elem_of_singleton. congruence.
      * constructor; [| done]. rewrite elem_of_cons. intros [-> | H]; done.
Qed.

Lemma join_app (sep : jstring) (L1 L2 : list jstring) :
  L1 ≠ [] → L2 ≠ [] →
  join sep (L1 ++ L2) = join sep L1 ++ sep ++ join sep L2.
Proof.
  induction L1 as [| x L1 IH]; intros H1 H2; [done |].
  destruct L1 as [| y L1].
  - cbn [app]. by rewrite join_cons.
  - cbn [app] in *. rewrite (join_cons sep x (y :: L1 ++ L2)) by done.
    rewrite IH by done. rewrite (join_cons sep x (y :: L1)) by done.
    by rewrite <- !app_assoc.
Qed.

(** [breakOn] splits at an occurrence of the delimiter, the first one. *)
Lemma breakOn_Some (d s a b : jstring) :
  breakOn d s = Some (a, b) → s = a ++ d ++ b.
Proof.
  revert a b. induction s as [| c s IH]; intros a b; cbn [breakOn].
  - destruct (startsWith [] d) eqn:Hd; [| done].
    apply startsWith_prefix in Hd as [r Hr]. intros [= <- <-].
    symmetry in Hr. by apply app_eq_nil in Hr as [-> ->].
  - destruct (startsWith (c :: s) d) eqn:Hd.
    + apply startsWith_prefix in Hd as [r Hr]. intros [= <- <-].
      rewrite Hr. by rewrite drop_app_length.
    + destruct (breakOn d s) as [[a0 b0] |]; [| done].
      intros [= <- <-]. by rewrite (IH a0 b0).
Qed.

Lemma breakOn_first (d s a b a' : jstring) :
  breakOn d s = Some (a, b) → (a' ++ d) `prefix_of` s →
  (length a ≤ length a')%nat.
Proof.
  revert a b a'. induction s as [| c s IH]; intros a b a'; cbn [breakOn].
  - destruct (startsWith [] d); [| done]. intros [= <- <-] _. simpl. lia.
  - destruct (startsWith (c :: s) d) eqn:Hd.
    + intros [= <- <-] _. simpl. lia.
    + destruct (breakOn d s) as [[a0 b0] |] eqn:Hb; [| done].
      intros [= <- <-] Hpre. destruct a' as [| c' a'].
      * cbn [app] in Hpre. apply startsWith_prefix in Hpre. congruence.
      * cbn [app] in Hpre. apply prefix_cons_inv_2 in Hpre.
        simpl. apply le_n_S. by eapply IH.
Qed.

Lemma breakOn_complete (d s a b : jstring) :
  s = a ++ d ++ b →
  (∀ a', (a' ++ d) `prefix_of` s → (length a ≤ length a')%nat) →
  breakOn d s = Some (a, b).
Proof.
  revert a. induction s as [| c s IH]; intros a Hs Hmin.
  - symmetry in Hs. apply app_eq_nil in Hs as [-> Hs].
    apply app_eq_nil in Hs as [-> ->]. reflexivity.
  - cbn [breakOn]. destruct (startsWith (c :: s) d) eqn:Hd.
    + apply startsWith_prefix in Hd.
      pose proof (Hmin [] Hd) as Hlen. destruct a; [| simpl in Hlen; lia].
      cbn [app] in Hs. rewrite Hs. by rewrite drop_app_length.
    + destruct a as [| c' a].
      * exfalso. cbn [app] in Hs.
        assert (startsWith (c :: s) d = true); [| congruence].
        apply startsWith_prefix. by exists b.
      * cbn [app] in Hs. injection Hs as <- Hs.
        rewrite (IH a Hs); [done |].
        intros a' Hpre. apply (prefix_cons c) in Hpre.
        specialize (Hmin (c :: a') Hpre). simpl in Hmin. lia.
Qed.

(** The closing delimiter is the first line [---] after the first line of
    the frontmatter, so the frontmatter that was matched has none. *)
Lemma no_inner_delimiter_line (s raw body : jstring) (n : nat) :
  breakOn ([LF] ++ js "---" ++ [LF]) s = Some (raw, body) →
  (1 ≤ n)%nat → split LF raw !! n ≠ Some (js "---").
Proof.
  intros Hb Hn HL.
  pose proof (take_drop_middle _ _ _ HL) as Hmid.
  assert (take n (split LF raw) ≠ []) as Hne1.
  { destruct n as [| n]; [lia |]. by destruct (split LF raw). }
  pose proof (join_split LF raw) as Hraw. rewrite <- Hmid in Hraw.
  rewrite join_app in Hraw by done. rewrite join_concat in Hraw.
  set (L1 := take n (split LF raw)) in *.
  set (X := concat ((λ y, [LF] ++ y) <$> drop (S n) (split LF raw))) in *.
  assert ((join [LF] L1 ++ [LF] ++ js "---" ++ [LF]) `prefix_of` s) as Hpre.
  { rewrite (breakOn_Some _ _ _ _ Hb), <- Hraw. subst X.
    destruct (drop (S n) (split LF raw)) as [| y L2]; cbn [fmap list_fmap concat].
    - rewrite app_nil_r. rewrite <- !app_assoc.
      do 3 apply prefix_app. apply prefix_app_r. done.
    - rewrite <- !app_assoc. do 3 apply prefix_app. by eexists. }
  pose proof (breakOn_first _ _ _ _ _ Hb Hpre) as Hlen.
  rewrite <- Hraw in Hlen. rewrite !length_app in Hlen. simpl in Hlen. lia.
Qed.

(** Conversely, lines without a line feed and without an inner [---] are
    found again in front of the closing delimiter. *)
Lemma breakOn_joined_lines (L : list jstring) (body : jstring) :
  L ≠ [] → Forall (λ l, LF ∉ l) L →
  (∀ n, (1 ≤ n)%nat → L !! n ≠ Some (js "---")) →
  breakOn ([LF] ++ js "---" ++ [LF])
          (join [LF] L ++ ([LF] ++ js "---" ++ [LF]) ++ body)
  = Some (join [LF] L, body).
Proof.
  intros Hne Hfree Hinner. apply breakOn_complete; [done |].
  intros a' Hpre.
  destruct (decide (length (join [LF] L) ≤ length a')%nat) as [| Hlt]; [done |].
  exfalso.
  set (t := join [LF] L ++ [LF] ++ js "---").
  assert ((a' ++ [LF] ++ js "---" ++ [LF]) `prefix_of` t) as [b Hb].
  { assert (t `prefix_of` join [LF] L ++ ([LF] ++ js "---" ++ [LF]) ++ body) as Ht.
    { subst t. apply prefix_app. rewrite <- !app_assoc.
      apply prefix_app. by eexists. }
    destruct (prefix_weak_total _ _ _ Hpre Ht) as [H | H]; [done |].
    apply prefix_length_eq in H as ->; [done |].
    subst t. rewrite !length_app. simpl. lia. }
  assert (split LF t = L ++ [js "---"]) as Hleft.
  { subst t. cbn [app]. rewrite split_app, split_join by done. done. }
  assert (split LF t = split LF a' ++ js "---" :: split LF b) as Hright.
  { rewrite Hb, <- !app_assoc. cbn [app]. rewrite split_app. reflexivity. }
  rewrite Hleft in Hright.
  pose proof (split_nonempty LF a') as Ha. pose proof (split_nonempty LF b) as Hb'.
  apply (Hinner (length (split LF a'))).
  - destruct (split LF a'); [done | simpl; lia].
  - assert ((L ++ [js "---"]) !! length (split LF a') = Some (js "---")) as Hmid.
    { rewrite Hright. apply list_lookup_middle. done. }
    rewrite lookup_app_l in Hmid; [done |].
    apply (f_equal length) in Hright. rewrite !length_app in Hright.
    simpl in Hright. destruct (split LF b); [done |]. simpl in Hright. lia.
Qed.

Lemma spanClass_Forall (p : N → bool) (s a b : jstring) :
  spanClass p s = (a, b) →
  Forall (λ c, p c = true) a ∧ match b with [] => True | c :: _ => p c = false end.
Proof.
  revert a b. induction s as [| c s IH]; intros a b; simpl.
  - by intros [= <- <-].
  - destruct (p c) eqn:Hc; [| by intros [= <- <-]].
    destruct (spanClass p s) as [a' b']. intros [= <- <-].
    destruct (IH a' b' eq_refl). split; [by constructor | done].
Qed.

Lemma spanClass_stop (p : N → bool) (a b : jstring) :
  Forall (λ c, p c = true) a →
  match b with [] => True | c :: _ => p c = false end →
  spanClass p (a ++ b) = (a, b).
Proof.
  induction 1 as [| c a Hc Ha IH]; intros Hb; simpl.
  - destruct b as [| c b]; [done |]. simpl. by rewrite Hb.
  - by rewrite Hc, IH.
Qed.

(** A rendered field is recognized again, with the same key and value. *)
Lemma matchLine_render (line k x : jstring) :
  matchLine line = Some (k, x) → matchLine (k ++ js ": " ++ x) = Some (k, x).
Proof.
  unfold matchLine at 1. destruct line as [| c rest]; [done |].
  destruct (isLower c) eqn:Hc; [| done].
  destruct (spanClass isKeyChar rest) as [k0 r] eqn:Hspan.
  apply spanClass_Forall in Hspan as [Hk0 _].
  destruct r as [| colon r1]; [done |].
  destruct (colon =? 58); [| done].
  case_match eqn:Hterm; [| done]. intros [= <- <-].
  unfold matchLine. cbn [app]. rewrite Hc.
  change (js ": ") with [58; 32].
  rewrite (spanClass_stop isKeyChar k0); [| done | reflexivity].
  cbn [app]. rewrite !N.eqb_refl. by rewrite Hterm.
Qed.

Lemma parseLine_render (line : jstring) :
  parseLine (render (parseLine line)) = parseLine line.
Proof.
  unfold parseLine at 2 3. destruct (matchLine line) as [[k x] |] eqn:Hm.
  - cbn [render toString]. unfold parseLine. by rewrite (matchLine_render line).
  - cbn [render]. unfold parseLine. by rewrite Hm.
Qed.

Lemma render_sep_free (line : jstring) :
  LF ∉ line → LF ∉ render (parseLine line).
Proof.
  intros Hline. pose proof (render_parseLine line) as Hr.
  destruct (matchLine line) as [[k x] |]; [| by rewrite Hr].
  destruct Hr as [-> Hr]. revert Hline.
  change (js ": ") with [58; 32]. change (js ":") with [58] in Hr.
  destruct Hr as [-> | ->]; rewrite !elem_of_app, !elem_of_cons, elem_of_nil;
    unfold LF; intros H [? | [[? | [? | ?]] | ?]]; try done; apply H; tauto.
Qed.

Lemma render_delimiter (line : jstring) :
  render (parseLine line) = js "---" → line = js "---".
Proof.
  pose proof (render_parseLine line) as Hr.
  destruct (matchLine line) as [[k x] |]; [| congruence].
  destruct Hr as [-> _]. intros H. exfalso.
  assert (58 ∈ k ++ js ": " ++ x) as Hin.
  { rewrite elem_of_app. right. by left. }
  rewrite H in Hin. revert Hin. by_compute.
Qed.

Lemma fmMatch_breakOn (content raw body : jstring) :
  fmMatch content = Some (raw, body) →
  breakOn ([LF] ++ js "---" ++ [LF]) (drop 4 content) = Some (raw, body).
Proof. unfold fmMatch. by case_match. Qed.

(** What [serialize] writes is matched again: the frontmatter is the
    rendered lines, the body is the body written. *)
Lemma fmMatch_serialize (content raw body newBody : jstring) :
  fmMatch content = Some (raw, body) →
  fmMatch (serialize (parseFrontmatter raw) newBody)
  = Some (join [LF] (render <$> parseFrontmatter raw), newBody).
Proof.
  intros Hfm%fmMatch_breakOn.
  change (fmMatch (serialize (parseFrontmatter raw) newBody))
    with (breakOn ([LF] ++ js "---" ++ [LF])
            (join [LF] (render <$> parseFrontmatter raw)
             ++ [LF] ++ js "---" ++ [LF] ++ newBody)).
  rewrite (app_assoc (js "---")), (app_assoc [LF] (js "---" ++ [LF])).
  unfold parseFrontmatter.
  pose proof (split_nonempty LF raw) as Hne.
  pose proof (split_sep_free LF raw) as Hfree.
  apply breakOn_joined_lines.
  - by destruct (split LF raw).
  - rewrite <- list_fmap_compose. apply Forall_fmap.
    eapply List.Forall_impl; [| exact Hfree]. intros line. apply render_sep_free.
  - intros n Hn. rewrite <- list_fmap_compose, list_lookup_fmap.
    destruct (split LF raw !! n) as [line |] eqn:Hline; [| done].
    cbn. intros [= Hr%render_delimiter]. subst line.
    by eapply no_inner_delimiter_line.
Qed.

(** Parsing the rendered lines gives the entries that were rendered. *)
Lemma parseFrontmatter_rendered (raw : jstring) :
  parseFrontmatter (join [LF] (render <$> parseFrontmatter raw))
  = parseFrontmatter raw.
Proof.
  unfold parseFrontmatter.
  pose proof (split_nonempty LF raw) as Hne.
  pose proof (split_sep_free LF raw) as Hfree.
  rewrite split_join.
  - rewrite <- !list_fmap_compose. apply list_fmap_ext.
    intros i line _. apply parseLine_render.
  - rewrite <- list_fmap_compose. apply Forall_fmap.
    eapply List.Forall_impl; [| exact Hfree]. intros line. apply render_sep_free.
  - by destruct (split LF raw).
Qed.

(** A run with [-d] and nothing else. *)
Lemma amend_description_only (node : Node) (ticketsDir : jstring) (v : jsval)
  (o : Opt.t) (content raw body : jstring) :
  onlyOption Description v o → v ≠ JNull →
  fmMatch content = Some (raw, body) →
  amend node ticketsDir o content
  = ret (serialize (parseFrontmatter raw)
           (trimEnd body ++ [LF; LF] ++ toString v ++ [LF])).
Proof.
  intros [Hval Hnull] Hv Hfm. unfold amend. rewrite Hfm.
  pose proof (Hnull Type_) as Ht.
  pose proof (Hnull Priority) as Hp. pose proof (Hnull Assignee) as Ha.
  pose proof (Hnull ExternalRef) as He. pose proof (Hnull Parent) as Hpa.
  pose proof (Hnull Tags) as Htg. cbn [slotValue] in *.
  rewrite Hval, Ht, Hp, Ha, He, Hpa, Htg by done.
  rewrite !amendScalar_null. unfold amendDescription.
  by destruct v.
Qed.

(** ** Appending a description *)

(** The description block, applied to the body it produced. *)
Lemma amendDescription_twice (body d1 d2 : jstring) (c1 c2 : bool) :
  let body1 := (amendDescription (JStr d1) body c1).1 in
  (amendDescription (JStr d2) body1 c2).1
  = trimEnd (trimEnd body ++ [LF; LF] ++ d1) ++ [LF; LF] ++ d2 ++ [LF].
Proof.
  intros body1. subst body1. unfold amendDescription. cbn [notNull toString fst].
  rewrite !app_assoc, trimEnd_snoc_space by done. by rewrite <- !app_assoc.
Qed.

(** C8, as the code has it: a run with [-d] alone writes the entries it
    parsed and, for the body, the body trimmed of its trailing whitespace,
    two newlines, the text and one newline.  A second such run on the file
    the first one wrote finds the same entries and appends in the same way
    to the body of the first, trimming it first: the trailing whitespace of
    the first text goes with that.  When the first text ends in a
    character that is not whitespace the body reads: original text, blank
    line, first text, blank line, second text. *)
Theorem description_appends_accumulate (node : Node) (ticketsDir : jstring)
  (o1 o2 : Opt.t) (content raw body d1 d2 : jstring) :
  onlyOption Description (JStr d1) o1 →
  onlyOption Description (JStr d2) o2 →
  fmMatch content = Some (raw, body) →
  let fields := parseFrontmatter raw in
  let body1 := trimEnd body ++ [LF; LF] ++ d1 ++ [LF] in
  let body2 :=
    trimEnd (trimEnd body ++ [LF; LF] ++ d1) ++ [LF; LF] ++ d2 ++ [LF] in
  amend node ticketsDir o1 content = ret (serialize fields body1)
  ∧ amend node ticketsDir o2 (serialize fields body1)
    = ret (serialize fields body2)
  ∧ (∀ d c, d1 = d ++ [c] → isWhiteSpace c = false →
       body2 = trimEnd body ++ [LF; LF] ++ d1 ++ [LF; LF] ++ d2 ++ [LF]).
Proof.
  intros Ho1 Ho2 Hfm fields body1 body2. split_and!.
  - by apply (amend_description_only node ticketsDir (JStr d1) o1 content raw body).
  - rewrite (amend_description_only node ticketsDir (JStr d2) o2
               (serialize fields body1) (join [LF] (render <$> fields)) body1 Ho2);
      [| done | by eapply fmMatch_serialize].
    subst fields. rewrite parseFrontmatter_rendered.
    cbn [toString]. do 2 f_equal. subst body1 body2.
    rewrite !app_assoc, trimEnd_snoc_space by done. by rewrite <- !app_assoc.
  - intros d c -> Hc. subst body2.
    rewrite !app_assoc, trimEnd_snoc_other by done. by rewrite <- !app_assoc.
Qed.

Lemma description_appends_accumulate_witness :
  let o d := Opt.mk (JStr (js "ab-1234")) (JStr d) JNull JNull JNull JNull
                    JNull JNull in
  ∃ out1,
    amend (demoStore (demoTicket [])) (js "/tmp/t/.tickets")
          (o (js "First addition")) (demoTicket []) = ret out1
    ∧ amend (demoStore out1) (js "/tmp/t/.tickets")
            (o (js "Second addition")) out1
      = ret (js "---
id: ab-1234
status: open
deps: []
links: []
created: 2026-01-01T00:00:00Z
type: task
priority: 2
assignee: Alice
---
# Test ticket

Original description

First addition

Second addition
").
Proof.
  intros o.
  edestruct (description_appends_accumulate (demoStore (demoTicket []))
               (js "/tmp/t/.tickets") (o (js "First addition"))
               (o (js "Second addition")) (demoTicket []))
    as (Hout1 & _ & _);
    [split; [reflexivity | by intros []] .. | reflexivity |].
  eexists. split; [exact Hout1 |]. reflexivity.
Defined.

(** C8 as stated fails when the first text ends in whitespace: the second
    run trims it away, and the first text is no longer in the body. *)
Lemma trailing_space_of_first_text_is_lost :
  let content := js "---" ++ [LF] ++ js "id: x" ++ [LF] ++ js "---" ++ [LF]
                 ++ js "x" ++ [LF] in
  let o d := Opt.mk (JStr (js "x")) (JStr d) JNull JNull JNull JNull JNull
                    JNull in
  let out1 := js "---" ++ [LF] ++ js "id: x" ++ [LF] ++ js "---" ++ [LF]
              ++ js "x" ++ [LF; LF] ++ js "a " ++ [LF] in
  let out2 := js "---" ++ [LF] ++ js "id: x" ++ [LF] ++ js "---" ++ [LF]
              ++ js "x" ++ [LF; LF] ++ js "a" ++ [LF; LF] ++ js "b" ++ [LF] in
  amend (demoStore content) (js "/tmp/t/.tickets") (o (js "a ")) content
    = ret out1
  ∧ amend (demoStore out1) (js "/tmp/t/.tickets") (o (js "b")) out1 = ret out2
  ∧ out2 ≠ js "---" ++ [LF] ++ js "id: x" ++ [LF] ++ js "---" ++ [LF]
           ++ js "x" ++ [LF; LF] ++ js "a " ++ [LF; LF] ++ js "b" ++ [LF]
  ∧ includes out2 (js "a ") = false.
Proof. split_and!; [reflexivity | reflexivity | by_compute | reflexivity]. Qed.

(** ** More on the argument loop *)

Lemma flagSlot_dash (a : jstring) (s : slot) :
  flagSlot a = Some s → startsWith a (js "-") = true.
Proof.
  unfold flagSlot, streq. intros H.
  repeat case_bool_decide; subst; try reflexivity; discriminate.
Qed.

Lemma assign_id (s : slot) (v : jsval) (o : Opt.t) :
  Opt.id (assign s v o) = Opt.id o.
Proof. by destruct o, s. Qed.

Lemma positional_id (a : jstring) (o : Opt.t) :
  Opt.id (positional a o)
  = if truthy (Opt.id o) then Opt.id o else JStr a.
Proof. unfold positional. destruct o as [i ? ? ? ? ? ? ?]; simpl. by destruct (truthy i). Qed.

Lemma argLoop_outcome (args : list jstring) (o : Opt.t) :
  match argLoop args o with
  | (t, inr o') =>
      t = []
      ∧ (truthy (Opt.id o) = true → Opt.id o' = Opt.id o)
      ∧ (Opt.id o' = Opt.id o
         ∨ ∃ a, a ∈ args ∧ startsWith a (js "-") = false ∧ Opt.id o' = JStr a)
  | (t, inl h) =>
      h = Exited 1
      ∧ ∃ a, a ∈ args ∧ startsWith a (js "-") = true ∧ flagSlot a = None
             ∧ t = [Stderr (js "Unknown option: " ++ a)]
  end.
Proof.
  remember (length args) as n eqn:Hn.
  assert (length args ≤ n)%nat as Hle by lia. clear Hn.
  revert args o Hle. induction n as [| n IH]; intros [| a rest] o Hle;
    cbn [argLoop length] in *; try lia; try (by split_and!; [| | left]).
  destruct (flagSlot a) as [s |] eqn:Hflag.
  - destruct rest as [| v rest'].
    + cbn. rewrite assign_id. by split_and!; [| | left].
    + specialize (IH rest' (assign s (JStr v) o)).
      cbn [length] in Hle. specialize (IH ltac:(lia)).
      destruct (argLoop rest' (assign s (JStr v) o)) as [t [h | o']].
      * destruct IH as (-> & b & Hb & Hrest). split; [done |].
        exists b. split; [| done]. by do 2 right.
      * rewrite assign_id in IH. destruct IH as (-> & Hkeep & Hid).
        split_and!; [done | done |].
        destruct Hid as [Hid | (b & Hb & Hrest)]; [by left | right].
        exists b. split; [| done]. by do 2 right.
  - destruct (startsWith a (js "-")) eqn:Hdash.
    + cbn. split; [done |]. exists a. split_and!; try done. by left.
    + specialize (IH rest (positional a o) ltac:(lia)).
      destruct (argLoop rest (positional a o)) as [t [h | o']].
      * destruct IH as (-> & b & Hb & Hrest). split; [done |].
        exists b. split; [| done]. by right.
      * rewrite positional_id in IH. destruct IH as (-> & Hkeep & Hid).
        destruct (truthy (Opt.id o)) eqn:Htruthy.
        -- split_and!; [done | by intros _; apply Hkeep |].
           destruct Hid as [Hid | (b & Hb & Hrest)]; [by left | right].
           exists b. split; [| done]. by right.
        -- split_and!; [done | done |]. right.
           destruct Hid as [Hid | (b & Hb & Hrest)].
           ++ exists a. split_and!; [by left | done | done].
           ++ exists b. split; [| done]. by right.
Qed.

Lemma parseArgs_outcomes_silent (args : list jstring) :
  match parseArgs args with
  | (t, inr _) => t = []
  | _ => True
  end.
Proof.
  unfold parseArgs.
  destruct (arrIncludes args (js "--tk-describe")); [done |].
  destruct (arrIncludes args (js "-h") || arrIncludes args (js "--help")
            || (length args =? 0)%nat); [done |].
  pose proof (argLoop_outcome args Opt.init) as Hloop.
  destruct (argLoop args Opt.init) as [t [h | o]]; [done |].
  destruct Hloop as (-> & _). cbn [bind app].
  by destruct (truthy (Opt.id o)).
Qed.

Lemma bind_inr_inv {A B} (c : M A) (k : A → M B) (t : list event) (b : B) :
  bind c k = (t, inr b) →
  ∃ t1 a t2, c = (t1, inr a) ∧ k a = (t2, inr b) ∧ t = t1 ++ t2.
Proof.
  destruct c as [t1 [h | a]]; simpl; [discriminate |].
  destruct (k a) as [t2 r] eqn:Hk. intros [= <- ->]. eauto 6.
Qed.

(** ** The value of a flag *)

(** The value-taking flags are the eleven spellings of the [case] labels. *)
Lemma flagSlot_spellings (f : jstring) (s : slot) :
  flagSlot f = Some s
  ↔ (f, s) ∈ [(js "-d", Description); (js "--description", Description);
              (js "-t", Type_); (js "--type", Type_);
              (js "-p", Priority); (js "--priority", Priority);
              (js "-a", Assignee); (js "--assignee", Assignee);
              (js "--external-ref", ExternalRef); (js "--parent", Parent);
              (js "--tags", Tags)].
Proof.
  split.
  - unfold flagSlot, streq. intros H.
    repeat case_bool_decide; subst; cbn in H; try discriminate;
      injection H as <-; rewrite !elem_of_cons; tauto.
  - rewrite !elem_of_cons, elem_of_nil.
    intros H. repeat destruct H as [[= -> ->] | H]; done.
Qed.
Lemma slotValue_assign (s s' : slot) (v : jsval) (o : Opt.t) :
  slotValue s (assign s' v o) = if decide (s = s') then v else slotValue s o.
Proof. by destruct o, s, s'. Qed.

Lemma slotValue_positional (s : slot) (a : jstring) (o : Opt.t) :
  slotValue s (positional a o) = slotValue s o.
Proof.
  unfold positional. destruct o as [i ? ? ? ? ? ? ?]; cbn.
  by destruct (truthy i), s.
Qed.

(** A variable changes in the loop only at a flag that names it. *)
Lemma argLoop_slot (s : slot) (args : list jstring) (o : Opt.t) :
  match argLoop args o with
  | (_, inr o') =>
      slotValue s o' = slotValue s o ∨ ∃ f, f ∈ args ∧ flagSlot f = Some s
  | _ => True
  end.
Proof.
  remember (length args) as n eqn:Hn.
  assert (length args ≤ n)%nat as Hle by lia. clear Hn.
  revert args o Hle. induction n as [| n IH]; intros [| a rest] o Hle;
    cbn [argLoop length] in *; try lia; try (by left).
  destruct (flagSlot a) as [s' |] eqn:Hflag.
  - assert (s = s' → ∃ f, f ∈ a :: rest ∧ flagSlot f = Some s) as Hhere.
    { intros ->. exists a. split; [by left | done]. }
    destruct rest as [| v rest'].
    + cbn. rewrite slotValue_assign. destruct (decide (s = s')); auto.
    + specialize (IH rest' (assign s' (JStr v) o)).
      cbn [length] in Hle. specialize (IH ltac:(lia)).
      destruct (argLoop rest' (assign s' (JStr v) o)) as [t [h | o']]; [done |].
      rewrite slotValue_assign in IH. destruct (decide (s = s')); [auto |].
      destruct IH as [IH | (f & Hf & Hs)]; [by left | right].
      exists f. split; [| done]. by do 2 right.
  - destruct (startsWith a (js "-")); [done |].
    specialize (IH rest (positional a o) ltac:(lia)).
    destruct (argLoop rest (positional a o)) as [t [h | o']]; [done |].
    rewrite slotValue_positional in IH.
    destruct IH as [IH | (f & Hf & Hs)]; [by left | right].
    exists f. split; [| done]. by right.
Qed.

(** The loop over a list of units runs through all of them. *)
Lemma argLoop_units (units : list (list jstring)) (o : Opt.t) :
  forallb argUnit units = true →
  ∃ o1,
    (∀ rest, argLoop (concat units ++ rest) o = argLoop rest o1)
    ∧ (truthy (Opt.id o) = true → Opt.id o1 = Opt.id o)
    ∧ (Opt.id o1 = Opt.id o ∨ ∃ a, [a] ∈ units ∧ Opt.id o1 = JStr a)
    ∧ ((∃ a, a ≠ [] ∧ [a] ∈ units) → truthy (Opt.id o1) = true)
    ∧ (∀ s, (∀ f x, [f; x] ∈ units → flagSlot f ≠ Some s) →
         slotValue s o1 = slotValue s o).
Proof.
  revert o. induction units as [| u units IH]; intros o Hunits.
  - exists o. split_and!; [done | done | by left | | done].
    intros (a & _ & Ha). by apply elem_of_nil in Ha.
  - cbn [forallb] in Hunits. apply andb_true_iff in Hunits as [Hu Hunits].
    destruct u as [| a [| v [| ? ?]]]; cbn [argUnit] in Hu; try done.
    + apply negb_true_iff in Hu.
      assert (flagSlot a = None) as Hnoflag.
      { destruct (flagSlot a) eqn:E; [| done].
        apply flagSlot_dash in E. congruence. }
      destruct (IH (positional a o) Hunits)
        as (o1 & Hrun & Hkeep & Hid & Hsome & Hslot).
      rewrite positional_id in Hkeep, Hid.
      exists o1. split_and!.
      * intros rest. cbn [concat app argLoop]. by rewrite Hnoflag, Hu.
      * intros Ht. rewrite Ht in Hkeep. by apply Hkeep.
      * destruct (truthy (Opt.id o)) eqn:Ht.
        -- destruct Hid as [Hid | (b & Hb & Hid)]; [by left | right].
           exists b. split; [by right | done].
        -- right. destruct Hid as [Hid | (b & Hb & Hid)].
           ++ exists a. split; [by left | done].
           ++ exists b. split; [by right | done].
      * intros (b & Hne & Hb). apply elem_of_cons in Hb as [[= <-] | Hb].
        -- destruct (truthy (Opt.id o)) eqn:Ht.
           ++ by rewrite Hkeep.
           ++ rewrite Hkeep; [by destruct b | by destruct b].
        -- apply Hsome. by exists b.
      * intros s Hnone. rewrite Hslot, slotValue_positional; [done |].
        intros f x Hfx. apply (Hnone f x). by right.
    + apply bool_decide_eq_true in Hu as [s Hs].
      destruct (IH (assign s (JStr v) o) Hunits)
        as (o1 & Hrun & Hkeep & Hid & Hsome & Hslot).
      rewrite assign_id in Hkeep, Hid.
      exists o1. split_and!.
      * intros rest. cbn [concat app argLoop]. by rewrite Hs.
      * done.
      * destruct Hid as [Hid | (b & Hb & Hid)]; [by left | right].
        exists b. split; [by right | done].
      * intros (b & Hne & Hb). apply elem_of_cons in Hb as [[=] | Hb].
        apply Hsome. by exists b.
      * intros s' Hnone. rewrite Hslot, slotValue_assign.
        -- rewrite decide_False; [done |]. intros ->.
           by apply (Hnone a v); [left |].
        -- intros f x Hfx. apply (Hnone f x). by right.
Qed.

Lemma argUnit_positional (units : list (list jstring)) (a : jstring) :
  forallb argUnit units = true → [a] ∈ units →
  startsWith a (js "-") = false.
Proof.
  intros Hunits Ha. rewrite forallb_forall in Hunits.
  apply list_elem_of_In, Hunits in Ha. by apply negb_true_iff in Ha.
Qed.

(** C10: the value of a flag, on whole argument lists.  Take an argument
    list without [--tk-describe], [-h] and [--help], and in it a
    value-taking flag that the loop reads as a flag: what stands before it
    is a sequence of units (flags with their values, tokens without a
    leading dash).  The token [v] after the flag is then its value,
    whatever it looks like.  If the parse succeeds, the flag's variable
    holds [v] unless a later flag names the same variable, and the id is
    a positional token before the flag or a token after [v].  If it fails,
    it is for a missing id or for an unknown option that is a token after
    [v].  And it does succeed when what follows [v] is again a sequence of
    units and some positional token is not empty; the variable then holds
    [v] unless one of the flags of those units names it, even if a value
    after [v] is spelled like the flag. *)
Theorem value_after_flag_is_consumed (units : list (list jstring))
  (flag v : jstring) (s : slot) (rest : list jstring) :
  forallb argUnit units = true →
  flagSlot flag = Some s →
  let args := concat units ++ flag :: v :: rest in
  arrIncludes args (js "--tk-describe") = false →
  arrIncludes args (js "-h") = false →
  arrIncludes args (js "--help") = false →
  match parseArgs args with
  | (t, inr o) =>
      t = []
      ∧ (slotValue s o = JStr v ∨ ∃ f, f ∈ rest ∧ flagSlot f = Some s)
      ∧ ∃ a, Opt.id o = JStr a ∧ a ≠ [] ∧ startsWith a (js "-") = false
             ∧ ([a] ∈ units ∨ a ∈ rest)
  | (t, inl h) =>
      h = Exited 1
      ∧ (t = [Stderr (js "Error: ticket ID is required")]
         ∨ ∃ a, a ∈ rest ∧ startsWith a (js "-") = true ∧ flagSlot a = None
                ∧ t = [Stderr (js "Unknown option: " ++ a)])
  end
  ∧ (∀ more,
       forallb argUnit more = true → rest = concat more →
       (∃ a, a ≠ [] ∧ [a] ∈ units ++ more) →
       ∃ o, parseArgs args = ret o
            ∧ ((∀ f x, [f; x] ∈ more → flagSlot f ≠ Some s) →
               slotValue s o = JStr v)).
Proof.
  intros Hunits Hflag args Hdescribe Hh Hhelp.
  destruct (argLoop_units units Opt.init Hunits)
    as (o1 & Hrun & _ & Hid1 & Hsome1 & _).
  set (o2 := assign s (JStr v) o1).
  assert (argLoop args Opt.init = argLoop rest o2) as Hloop.
  { subst args. rewrite Hrun. cbn [argLoop]. by rewrite Hflag. }
  assert (Opt.id o2 = Opt.id o1) as Hid2 by apply assign_id.
  assert (slotValue s o2 = JStr v) as Hval2.
  { subst o2. rewrite slotValue_assign. by rewrite decide_True. }
  assert ((length args =? 0)%nat = false) as Hlen.
  { apply Nat.eqb_neq. subst args. rewrite length_app. cbn. lia. }
  unfold parseArgs. rewrite Hdescribe, Hh, Hhelp, Hlen, Hloop. cbn [orb].
  split.
  - pose proof (argLoop_outcome rest o2) as Hout.
    pose proof (argLoop_slot s rest o2) as Hslot.
    destruct (argLoop rest o2) as [t [h | o]].
    + destruct Hout as (-> & a & Ha & Hdash & Hnoflag & ->).
      cbn. split; [done |]. right. by exists a.
    + destruct Hout as (-> & _ & Hid). cbn [bind app].
      destruct (truthy (Opt.id o)) eqn:Htruthy; cbn; [| by split; [| left]].
      split_and!; [done | by rewrite <- Hval2 |].
      destruct Hid as [Hid | (a & Ha & Hdash & Hid)].
      * rewrite Hid2 in Hid.
        destruct Hid1 as [Hinit | (a & Ha & Hid1)].
        -- rewrite Hid, Hinit in Htruthy. discriminate.
        -- exists a. rewrite Hid, Hid1 in *. split_and!; [done | | | by left].
           ++ by intros ->.
           ++ by eapply argUnit_positional.
      * exists a. rewrite Hid in *. split_and!; [done | | done | by right].
        by intros ->.
  - intros more Hmore -> (a & Hne & Ha).
    destruct (argLoop_units more o2 Hmore)
      as (o3 & Hrun3 & Hkeep3 & _ & Hsome3 & Hslot3).
    specialize (Hrun3 []). rewrite app_nil_r in Hrun3. rewrite Hrun3.
    cbn [argLoop]. rewrite bind_ret.
    assert (truthy (Opt.id o3) = true) as ->.
    2: { exists o3. split; [done |]. intros Hnone. by rewrite Hslot3. }
    apply elem_of_app in Ha as [Ha | Ha].
    + assert (truthy (Opt.id o1) = true) as Ht1 by (apply Hsome1; by exists a).
      rewrite <- Hid2 in Ht1. by rewrite Hkeep3.
    + apply Hsome3. by exists a.
Qed.

Lemma value_after_flag_is_consumed_witness :
  ∃ o,
    parseArgs [js "ab-1234"; js "-d"; js "--bogus"; js "-t"; js "-d"; js "x"]
      = ret o
    ∧ Opt.description o = JStr (js "--bogus")
    ∧ Opt.id o = JStr (js "ab-1234").
Proof.
  destruct (value_after_flag_is_consumed [[js "ab-1234"]] (js "-d")
              (js "--bogus") Description [js "-t"; js "-d"; js "x"]
              eq_refl eq_refl eq_refl eq_refl eq_refl) as [Hout Hsome].
  destruct (Hsome [[js "-t"; js "-d"]; [js "x"]] eq_refl eq_refl)
    as (o & Ho & Hval).
  { exists (js "x"). split; [discriminate |]. by do 2 right; left. }
  exists o. split; [exact Ho |]. split.
  - apply Hval. intros f x Hfx.
    rewrite !elem_of_cons, elem_of_nil in Hfx.
    destruct Hfx as [[= -> _] | [[=] | []]]. discriminate.
  - vm_compute in Ho. injection Ho as <-. reflexivity.
Defined.

(** C10 as stated, for every argument list and every token that follows a
    token spelled like a value-taking flag, fails in three ways.  With
    [--help] after [-d] the usage text is printed and nothing is parsed.
    In [-d -t bug] the token [-t] is the value of [-d], so [bug], the
    token after [-t], is the positional id.  In [ab-1234 -d -t --bogus]
    the token after [-t] is reported as an unknown option. *)
Lemma token_after_flag_spelling_is_not_a_value :
  parseArgs [js "ab-1234"; js "-d"; js "--help"]
    = ([Stdout usage], inl (Exited 0))
  ∧ parseArgs [js "-d"; js "-t"; js "bug"]
    = ret (Opt.mk (JStr (js "bug")) (JStr (js "-t"))
                  JNull JNull JNull JNull JNull JNull)
  ∧ parseArgs [js "ab-1234"; js "-d"; js "-t"; js "--bogus"]
    = ([Stderr (js "Unknown option: --bogus")], inl (Exited 1)).
Proof. split_and!; reflexivity. Qed.

(** X1: how [parseArgs] can end.  When it returns, nothing was printed and
    the id is a non-empty token of the argument list that does not start
    with a dash.  Otherwise it exits with code 0 after the descriptor or
    the usage text, or with code 1 after "ticket ID is required" or after
    "Unknown option" naming a token of the list that starts with a dash
    and is no flag. *)
Theorem parseArgs_outcomes (args : list jstring) :
  match parseArgs args with
  | (t, inr o) =>
      t = []
      ∧ ∃ a, Opt.id o = JStr a ∧ a ∈ args ∧ a ≠ []
             ∧ startsWith a (js "-") = false
  | (t, inl h) =>
      (h = Exited 0 ∧ (t = [Stdout describeLine] ∨ t = [Stdout usage]))
      ∨ (h = Exited 1
         ∧ (t = [Stderr (js "Error: ticket ID is required")]
            ∨ ∃ a, a ∈ args ∧ startsWith a (js "-") = true
                   ∧ flagSlot a = None
                   ∧ t = [Stderr (js "Unknown option: " ++ a)]))
  end.
Proof.
  unfold parseArgs.
  destruct (arrIncludes args (js "--tk-describe")); [left; split; [done | by left] |].
  destruct (arrIncludes args (js "-h") || arrIncludes args (js "--help")
            || (length args =? 0)%nat); [left; split; [done | by right] |].
  pose proof (argLoop_outcome args Opt.init) as Hloop.
  destruct (argLoop args Opt.init) as [t [h | o]].
  - destruct Hloop as (-> & a & Ha). right. split; [done |]. right. by exists a.
  - destruct Hloop as (-> & _ & Hid). cbn [bind app].
    destruct (truthy (Opt.id o)) eqn:Htruthy; cbn.
    + split; [done |]. destruct Hid as [Hid | (a & Ha & Hdash & Hid)].
      * rewrite Hid in Htruthy. discriminate.
      * exists a. rewrite Hid in Htruthy. split_and!; try done.
        by intros ->.
    + right. split; [done |]. by left.
Qed.

(** Flags with their values, as they stand in the argument list. *)
Lemma argLoop_flag_pairs (pairs : list (jstring * jstring))
  (rest : list jstring) (o : Opt.t) :
  Forall (λ p, is_Some (flagSlot p.1)) pairs →
  ∃ o1, Opt.id o1 = Opt.id o
        ∧ argLoop (concat ((λ p, [p.1; p.2]) <$> pairs) ++ rest) o
          = argLoop rest o1.
Proof.
  intros Hpairs. revert o. induction Hpairs as [| [f v] pairs [s Hs] _ IH];
    intros o.
  - by exists o.
  - destruct (IH (assign s (JStr v) o)) as (o1 & Hid & Hrun).
    exists o1. rewrite Hid, assign_id. split; [done |].
    cbn [fst] in Hs. cbn [fmap list_fmap concat app fst snd argLoop].
    by rewrite Hs.
Qed.

(** X2: the id is the first non-empty token that is neither a flag nor the
    value of one: flags with their values may come before it, and whatever
    comes after it cannot change it. *)
Theorem id_is_first_positional (pairs : list (jstring * jstring))
  (a : jstring) (rest : list jstring) (t : list event) (o : Opt.t) :
  Forall (λ p, is_Some (flagSlot p.1)) pairs →
  a ≠ [] → startsWith a (js "-") = false →
  argLoop (concat ((λ p, [p.1; p.2]) <$> pairs) ++ a :: rest) Opt.init
    = (t, inr o) →
  Opt.id o = JStr a.
Proof.
  intros Hpairs Ha Hdash.
  destruct (argLoop_flag_pairs pairs (a :: rest) Opt.init Hpairs)
    as (o1 & Hid & ->).
  cbn [argLoop]. destruct (flagSlot a) as [s |] eqn:Hflag.
  { apply flagSlot_dash in Hflag. congruence. }
  rewrite Hdash. intros Hrun.
  pose proof (argLoop_outcome rest (positional a o1)) as Hloop.
  rewrite Hrun in Hloop. destruct Hloop as (_ & Hkeep & _).
  rewrite positional_id, Hid in Hkeep. cbn in Hkeep.
  apply Hkeep. by destruct a.
Qed.

Lemma id_is_first_positional_witness :
  ∃ t o,
    argLoop [js "-t"; js "bug"; js "--tags"; js "-x"; js "ab-1234";
             js "cd-5678"; js "-p"; js "1"] Opt.init = (t, inr o)
    ∧ Opt.id o = JStr (js "ab-1234").
Proof.
  eexists _, _. split; [reflexivity |].
  eapply (id_is_first_positional [(js "-t", js "bug"); (js "--tags", js "-x")]
            (js "ab-1234") [js "cd-5678"; js "-p"; js "1"]);
    [repeat constructor; by eexists | discriminate | reflexivity | reflexivity].
Defined.

(** X3: of two values for the same option the later one counts, options
    for different variables can be given in either order, and an option
    can stand before or after a positional token. *)
Theorem options_last_wins_and_commute (f1 v1 f2 v2 : jstring) (s1 s2 : slot)
  (rest : list jstring) (o : Opt.t) :
  flagSlot f1 = Some s1 → flagSlot f2 = Some s2 →
  (s1 = s2 →
     argLoop (f1 :: v1 :: f2 :: v2 :: rest) o = argLoop (f2 :: v2 :: rest) o)
  ∧ (s1 ≠ s2 →
     argLoop (f1 :: v1 :: f2 :: v2 :: rest) o
       = argLoop (f2 :: v2 :: f1 :: v1 :: rest) o)
  ∧ (∀ a, startsWith a (js "-") = false →
       argLoop (a :: f1 :: v1 :: rest) o = argLoop (f1 :: v1 :: a :: rest) o).
Proof.
  intros H1 H2. split_and!.
  - intros <-. cbn [argLoop]. rewrite H1, H2. f_equal. by destruct o, s1.
  - intros Hne. cbn [argLoop]. rewrite H1, H2. f_equal.
    by destruct o, s1, s2.
  - intros a Hdash. cbn [argLoop]. rewrite H1.
    destruct (flagSlot a) as [s |] eqn:Hflag.
    { apply flagSlot_dash in Hflag. congruence. }
    rewrite Hdash. f_equal. unfold positional.
    destruct o as [i ? ? ? ? ? ? ?], s1; cbn; by destruct (truthy i).
Qed.

Lemma options_last_wins_and_commute_witness :
  argLoop [js "-t"; js "bug"; js "--type"; js "task"; js "ab-1234"] Opt.init
    = argLoop [js "--type"; js "task"; js "ab-1234"] Opt.init
  ∧ argLoop [js "-t"; js "bug"; js "-p"; js "0"; js "ab-1234"] Opt.init
    = argLoop [js "-p"; js "0"; js "-t"; js "bug"; js "ab-1234"] Opt.init.
Proof.
  split.
  - by apply (proj1 (options_last_wins_and_commute (js "-t") (js "bug")
                       (js "--type") (js "task") Type_ Type_ [js "ab-1234"]
                       Opt.init eq_refl eq_refl)).
  - by apply (proj1 (proj2 (options_last_wins_and_commute (js "-t") (js "bug")
                       (js "-p") (js "0") Type_ Priority [js "ab-1234"]
                       Opt.init eq_refl eq_refl))).
Defined.

Lemma onlyOption_assign (s : slot) (v : jsval) (a : jstring) :
  onlyOption s v (assign s v (positional a Opt.init)).
Proof. split; [by destruct s | intros s' Hne; by destruct s, s']. Qed.

(** X4: a value-taking flag that is the last argument takes [undefined] as
    its value.  For a scalar option the line written is [key: undefined];
    for [-d] the text appended is [undefined]; for [--tags] and
    [--parent] the run ends in an uncaught [TypeError], with nothing
    printed and nothing written. *)
Theorem flag_without_value (node : Node) (ticketsDir a f : jstring) (s : slot)
  (content raw body : jstring) :
  a ≠ [] → startsWith a (js "-") = false →
  flagSlot f = Some s →
  fmMatch content = Some (raw, body) →
  let o := assign s JUndefined (positional a Opt.init) in
  let fields := parseFrontmatter raw in
  parseArgs [a; f] = ret o
  ∧ (s = Tags ∨ s = Parent →
     amend node ticketsDir o content = ([], inl (Uncaught TypeError)))
  ∧ (s = Description →
     amend node ticketsDir o content
       = ret (serialize fields
                (trimEnd body ++ [LF; LF] ++ js "undefined" ++ [LF])))
  ∧ (∀ key, (s, key) ∈ scalarKeys →
       amend node ticketsDir o content
         = ret (serialize (setField fields key JUndefined) body)
       ∧ render (Field key JUndefined) = key ++ js ": undefined").
Proof.
  intros Ha Hdash Hflag Hfm o fields.
  pose proof (onlyOption_assign s JUndefined a) as Honly. fold o in Honly.
  split_and!.
  - assert (flagSlot a = None) as Hnoflag.
    { destruct (flagSlot a) eqn:E; [| done].
      apply flagSlot_dash in E. congruence. }
    unfold parseArgs.
    assert (arrIncludes [a; f] (js "--tk-describe") = false) as ->.
    { apply arrIncludes_false. rewrite !elem_of_cons, elem_of_nil.
      intros [<- | [<- | []]]; discriminate. }
    assert (arrIncludes [a; f] (js "-h") = false) as ->.
    { apply arrIncludes_false. rewrite !elem_of_cons, elem_of_nil.
      intros [<- | [<- | []]]; discriminate. }
    assert (arrIncludes [a; f] (js "--help") = false) as ->.
    { apply arrIncludes_false. rewrite !elem_of_cons, elem_of_nil.
      intros [<- | [<- | []]]; discriminate. }
    cbn [orb length Nat.eqb argLoop]. rewrite Hnoflag, Hdash, Hflag.
    rewrite bind_ret. fold o.
    assert (truthy (Opt.id o) = true) as ->; [| done].
    subst o. rewrite assign_id, positional_id. cbn. by destruct a.
  - intros Hs. unfold amend. rewrite Hfm.
    subst o. destruct Hs as [-> | ->]; reflexivity.
  - intros ->.
    by rewrite (amend_description_only node ticketsDir JUndefined o content raw body).
  - intros key Hkey. split; [| done].
    destruct Honly as [Hval Hnull].
    by apply (amend_scalar_only node ticketsDir s key JUndefined o content raw body).
Qed.

Lemma flag_without_value_witness :
  let o := Opt.mk (JStr (js "ab-1234")) JNull JNull JNull JNull JNull JNull
                  JUndefined in
  parseArgs [js "ab-1234"; js "--tags"] = ret o
  ∧ amend (demoStore (demoTicket [])) (js "/tmp/t/.tickets") o (demoTicket [])
    = ([], inl (Uncaught TypeError)).
Proof.
  intros o.
  edestruct (flag_without_value (demoStore (demoTicket []))
               (js "/tmp/t/.tickets") (js "ab-1234") (js "--tags") Tags
               (demoTicket [])) as (Hargs & Hcrash & _);
    [discriminate | reflexivity | reflexivity | reflexivity |].
  split; [exact Hargs | apply Hcrash; by left].
Defined.

(** ** What a run prints *)

Lemma walkParents_success (node : Node) (fuel : nat) (dir d : jstring)
  (t : list event) :
  walkParents node fuel dir = (t, inr d) →
  t = [] ∧ existsSync node d = true ∧ isDirectory node d = true
  ∧ ∃ k, (k < fuel)%nat
         ∧ d = path_join node (ancestor node k dir) (js ".tickets").
Proof.
  revert dir. induction fuel as [| fuel IH]; intros dir; cbn [walkParents];
    [done |].
  destruct (existsSync node (path_join node dir (js ".tickets"))) eqn:He;
    [destruct (isDirectory node (path_join node dir (js ".tickets"))) eqn:Hd |];
    cbn [andb].
  - intros [= <- <-]. split_and!; try done. exists 0%nat. split; [lia | done].
  - destruct (streq (path_dirname node dir) dir); [done |].
    intros (-> & ? & ? & k & Hk & ->)%IH. split_and!; try done.
    exists (S k). split; [lia | done].
  - destruct (streq (path_dirname node dir) dir); [done |].
    intros (-> & ? & ? & k & Hk & ->)%IH. split_and!; try done.
    exists (S k). split; [lia | done].
Qed.

Lemma findTicketsDir_success (node : Node) (fuel : nat) (d : jstring)
  (t : list event) :
  findTicketsDir node fuel = (t, inr d) → t = [].
Proof.
  unfold findTicketsDir. case_match.
  - by intros [= <- _].
  - by intros (-> & _)%walkParents_success.
Qed.

Lemma resolveTicket_success (node : Node) (ticketsDir : jstring) (id : jsval)
  (file : jstring) (t : list event) :
  resolveTicket node ticketsDir id = (t, inr file) → t = [].
Proof.
  unfold resolveTicket. repeat case_match; try done; by intros [= <- _].
Qed.

Lemma amend_success (node : Node) (ticketsDir : jstring) (o : Opt.t)
  (content output : jstring) (t : list event) :
  amend node ticketsDir o content = (t, inr output) → t = [].
Proof.
  unfold amend. destruct (fmMatch content) as [[raw body] |]; [| done].
  intros (t1 & st1 & t' & Hparent & Hrest & ->)%bind_inr_inv.
  apply bind_inr_inv in Hrest as (t2 & st2 & t3 & Htags & Hend & ->).
  assert (t1 = []) as ->.
  { revert Hparent. unfold amendParent.
    destruct (notNull (Opt.parent o)); [| by intros [= <- _]].
    intros (t0 & f & t0' & ->%resolveTicket_success & [= <- _] & ->)%bind_inr_inv.
    done. }
  assert (t2 = []) as ->.
  { revert Htags. unfold amendTags.
    destruct (Opt.tags o); [| done |]; by intros [= <- _]. }
  revert Hend. destruct (amendDescription _ _ _) as [nb ch].
  destruct ch; cbn; [by intros [= <- _] | done].
Qed.

(** X5: a run that ends normally has printed nothing on the error stream:
    its whole trace is the write of the ticket file followed by the one
    line [Amended <id>], where the id is the base name of the file the
    identifier resolved to. *)
Theorem success_report (node : Node) (fuel : nat) (args : list jstring) :
  status (main node fuel args) = inr tt →
  ∃ o ticketsDir ticketFile output,
    parseArgs args = ret o
    ∧ findTicketsDir node fuel = ret ticketsDir
    ∧ resolveTicket node ticketsDir (Opt.id o) = ret ticketFile
    ∧ trace (main node fuel args)
      = [WriteFile ticketFile output;
         Stdout (js "Amended " ++ path_basename node ticketFile (js ".md"))].
Proof.
  unfold main.
  pose proof (parseArgs_outcomes_silent args) as Hargs.
  destruct (parseArgs args) as [t1 [h | o]]; [done |]. rewrite Hargs.
  change ([], inr o) with (ret (A := Opt.t) o). rewrite bind_ret.
  destruct (findTicketsDir node fuel) as [t2 [h | dir]] eqn:Hdir; [done |].
  pose proof (findTicketsDir_success _ _ _ _ Hdir) as ->.
  change ([], inr dir) with (ret (A := jstring) dir). rewrite bind_ret.
  destruct (resolveTicket node dir (Opt.id o)) as [t3 [h | file]] eqn:Hfile;
    [done |].
  pose proof (resolveTicket_success _ _ _ _ _ Hfile) as ->.
  change ([], inr file) with (ret (A := jstring) file). rewrite bind_ret.
  destruct (readFileSync node file) as [content |]; [| done].
  cbn [from_option]. rewrite bind_ret.
  destruct (amend node dir o content) as [t4 [h | output]] eqn:Hout; [done |].
  pose proof (amend_success _ _ _ _ _ _ Hout) as ->.
  change ([], inr output) with (ret (A := jstring) output). rewrite bind_ret.
  unfold writeFileSync. destruct (canWrite node file); [| done].
  intros _. exists o, dir, file, output. done.
Qed.

Lemma success_report_witness :
  ∃ output,
    trace (main (demoStore (demoTicket [])) 0 [js "1234"; js "-t"; js "bug"])
      = [WriteFile (js "/tmp/t/.tickets/ab-1234.md") output;
         Stdout (js "Amended ab-1234")].
Proof.
  destruct (success_report (demoStore (demoTicket [])) 0
              [js "1234"; js "-t"; js "bug"] eq_refl)
    as (o & ticketsDir & ticketFile & output & Ho & Hd & Hf & Ht).
  exists output. rewrite Ht.
  vm_compute in Ho. injection Ho as <-.
  vm_compute in Hd. injection Hd as <-.
  vm_compute in Hf. injection Hf as <-. reflexivity.
Defined.

(** ** The frontmatter pattern *)

Lemma breakOn_is_Some (d s a : jstring) :
  (a ++ d) `prefix_of` s → is_Some (breakOn d s).
Proof.
  revert s. induction a as [| c a IH]; intros s Hpre.
  - cbn [app] in Hpre. apply startsWith_prefix in Hpre.
    destruct s; cbn [breakOn]; rewrite Hpre; by eexists.
  - destruct s as [| c' s]; [by apply prefix_nil_inv in Hpre |].
    cbn [app] in Hpre. apply prefix_cons_inv_2 in Hpre.
    cbn [breakOn]. destruct (startsWith (c' :: s) d); [by eexists |].
    destruct (IH s Hpre) as [[a' b'] ->]. by eexists.
Qed.

Lemma fmMatch_Some_shape (content raw body : jstring) :
  fmMatch content = Some (raw, body) →
  content = js "---" ++ [LF] ++ raw ++ [LF] ++ js "---" ++ [LF] ++ body.
Proof.
  unfold fmMatch. destruct (startsWith content (js "---" ++ [LF])) eqn:Hstart;
    [| done].
  apply startsWith_prefix in Hstart as [r ->].
  change (drop 4 ((js "---" ++ [LF]) ++ r)) with r.
  intros ->%breakOn_Some. by rewrite <- !app_assoc.
Qed.

(** X6: what a valid ticket is.  The match succeeds exactly on a content
    of the form [---\n] frontmatter [\n---\n] body; the frontmatter it
    takes is the shortest one and the two groups put between the
    delimiters give the content back.  On any other content the run ends
    with "ticket has no valid frontmatter" and exit code 1, whatever the
    options. *)
Theorem valid_ticket_shape (content : jstring) :
  (∀ raw body,
     fmMatch content = Some (raw, body) →
     content = js "---" ++ [LF] ++ raw ++ [LF] ++ js "---" ++ [LF] ++ body
     ∧ ∀ raw' body',
         content = js "---" ++ [LF] ++ raw' ++ [LF] ++ js "---" ++ [LF] ++ body' →
         (length raw ≤ length raw')%nat)
  ∧ (is_Some (fmMatch content)
     ↔ ∃ raw body,
         content = js "---" ++ [LF] ++ raw ++ [LF] ++ js "---" ++ [LF] ++ body)
  ∧ (fmMatch content = None →
     ∀ node ticketsDir o,
       amend node ticketsDir o content
       = ([Stderr (js "Error: ticket has no valid frontmatter")],
          inl (Exited 1))).
Proof.
  split_and!.
  - intros raw body Hfm. split; [by apply fmMatch_Some_shape |].
    intros raw' body' Hshape. apply fmMatch_breakOn in Hfm.
    eapply breakOn_first; [exact Hfm |].
    rewrite Hshape. change (drop 4 (js "---" ++ [LF] ++ ?x)) with x.
    exists body'. by rewrite <- !app_assoc.
  - split.
    + intros [[raw body] Hfm]. exists raw, body. by apply fmMatch_Some_shape.
    + intros (raw & body & ->).
      change (fmMatch (js "---" ++ [LF] ++ ?x))
        with (breakOn ([LF] ++ js "---" ++ [LF]) x).
      apply (breakOn_is_Some _ _ raw). exists body. by rewrite <- !app_assoc.
  - intros Hfm node ticketsDir o. unfold amend. by rewrite Hfm.
Qed.

Lemma valid_ticket_shape_witness :
  fmMatch (js "---" ++ [LF] ++ js "id: x" ++ [LF] ++ js "---" ++ [LF]
           ++ js "a" ++ [LF] ++ js "---" ++ [LF] ++ js "b")
  = Some (js "id: x", js "a" ++ [LF] ++ js "---" ++ [LF] ++ js "b")
  ∧ amend demoBare [] Opt.init (js "---" ++ [LF] ++ js "---" ++ [LF] ++ js "b")
    = ([Stderr (js "Error: ticket has no valid frontmatter")], inl (Exited 1)).
Proof.
  split; [reflexivity |].
  by apply (proj2 (proj2 (valid_ticket_shape _))).
Defined.

(** ** The field pattern *)

Lemma isKey_cons (c : N) (k0 : jstring) :
  isKey (c :: k0) = true
  ↔ isLower c = true ∧ Forall (λ x, isKeyChar x = true) k0.
Proof.
  cbn [isKey]. rewrite andb_true_iff, forallb_forall, list.Forall_forall.
  split; intros [? H]; (split; [done |]); intros x Hx; apply H;
    by apply list_elem_of_In.
Qed.

(** X7: the lines the parse loop recognizes.  A line gives the groups
    [(k, v)] exactly when [k] is a key (a lowercase letter, then lowercase
    letters, digits and dashes), [v] holds no line terminator, and the
    line is [k: v], or [k:v] with [v] not starting with a space. *)
Theorem recognized_line (line k v : jstring) :
  matchLine line = Some (k, v)
  ↔ isKey k = true ∧ noLineTerminator v = true
    ∧ (line = k ++ js ": " ++ v
       ∨ (line = k ++ js ":" ++ v ∧ head v ≠ Some 32)).
Proof.
  change (js ": ") with [58; 32]. change (js ":") with [58]. split.
  - unfold matchLine. destruct line as [| c rest]; [done |].
    destruct (isLower c) eqn:Hc; [| done].
    destruct (spanClass isKeyChar rest) as [k0 r] eqn:Hspan.
    pose proof (spanClass_Forall _ _ _ _ Hspan) as [Hk0 _].
    apply spanClass_app in Hspan as ->.
    destruct r as [| colon r1]; [done |].
    destruct (N.eqb_spec colon 58) as [-> | _]; [| done].
    case_match eqn:Hterm; [| done]. intros [= <- <-].
    split_and!; [by apply isKey_cons | done |].
    destruct r1 as [| sp r2]; [by right |].
    destruct (N.eqb_spec sp 32) as [-> | Hsp]; [by left | right].
    split; [done |]. cbn. congruence.
  - intros (Hk & Hv & Hline). destruct k as [| c k0]; [done |].
    unfold noLineTerminator in Hv.
    apply isKey_cons in Hk as [Hc Hk0].
    assert (spanClass isKeyChar (k0 ++ 58 :: v) = (k0, 58 :: v)
            ∧ spanClass isKeyChar (k0 ++ 58 :: 32 :: v) = (k0, 58 :: 32 :: v))
      as [Hs1 Hs2].
    { split; by apply spanClass_stop. }
    unfold matchLine.
    destruct Hline as [-> | [-> Hhead]]; cbn [app]; rewrite Hc.
    + rewrite Hs2. cbn -[forallb]. by rewrite Hv.
    + rewrite Hs1. cbn -[forallb]. destruct v as [| sp r2].
      * by rewrite Hv.
      * destruct (N.eqb_spec sp 32) as [-> | _]; [done |]. by rewrite Hv.
Qed.

(** ** Writing and reading back *)

Lemma matchLine_spaced (k v : jstring) :
  isKey k = true → noLineTerminator v = true →
  matchLine (k ++ js ": " ++ v) = Some (k, v).
Proof.
  intros Hk Hv. destruct k as [| c k0]; [done |].
  apply isKey_cons in Hk as [Hc Hk0]. unfold noLineTerminator in Hv.
  change (js ": ") with [58; 32]. unfold matchLine. cbn [app]. rewrite Hc.
  rewrite (spanClass_stop isKeyChar k0); [| done | reflexivity].
  cbn -[forallb]. by rewrite Hv.
Qed.

Lemma isKey_sep_free (k : jstring) : isKey k = true → LF ∉ k.
Proof.
  destruct k as [| c k0]; [done |]. intros [Hc Hk0]%isKey_cons.
  rewrite elem_of_cons. intros [<- | Hin]; [done |].
  rewrite list.Forall_forall in Hk0. by apply Hk0 in Hin.
Qed.

Lemma noLineTerminator_sep_free (v : jstring) :
  noLineTerminator v = true → LF ∉ v.
Proof.
  unfold noLineTerminator. rewrite forallb_forall. intros H Hin.
  apply list_elem_of_In in Hin. by apply H in Hin.
Qed.

Lemma readsBack_Field (k v : jstring) :
  isKey k = true → noLineTerminator v = true → readsBack (Field k (JStr v)).
Proof.
  intros Hk Hv. split; cbn [render toString].
  - change (js ": ") with [58; 32].
    rewrite !elem_of_app, !elem_of_cons, elem_of_nil.
    intros [Hin | [[? | [? | []]] | Hin]]; try done.
    + by apply isKey_sep_free in Hin.
    + by apply noLineTerminator_sep_free in Hin.
  - unfold parseLine. by rewrite matchLine_spaced.
Qed.

Lemma readsBack_parsed (raw : jstring) :
  Forall readsBack (parseFrontmatter raw).
Proof.
  unfold parseFrontmatter. apply Forall_fmap.
  eapply List.Forall_impl; [| apply (split_sep_free LF raw)].
  intros line Hline. split; [by apply render_sep_free | apply parseLine_render].
Qed.

Lemma parsed_inner_delimiter (content raw body : jstring) (n : nat) :
  fmMatch content = Some (raw, body) → (1 ≤ n)%nat →
  parseFrontmatter raw !! n ≠ Some (Raw (js "---")).
Proof.
  intros Hfm%fmMatch_breakOn Hn. unfold parseFrontmatter.
  rewrite list_lookup_fmap.
  destruct (split LF raw !! n) as [line |] eqn:Hline; [| done].
  cbn. unfold parseLine. destruct (matchLine line) as [[k v] |]; [done |].
  intros [= ->]. by eapply no_inner_delimiter_line.
Qed.

(** A list of entries that read back, with no [---] line after the first,
    is found again in what [serialize] writes. *)
Lemma fields_read_back (fields : list entry) (body : jstring) :
  fields ≠ [] → Forall readsBack fields →
  (∀ n, (1 ≤ n)%nat → fields !! n ≠ Some (Raw (js "---"))) →
  fmMatch (serialize fields body)
    = Some (join [LF] (render <$> fields), body)
  ∧ parseFrontmatter (join [LF] (render <$> fields)) = fields.
Proof.
  intros Hne Hback Hinner.
  assert (Forall (λ l, LF ∉ l) (render <$> fields)) as Hfree.
  { apply Forall_fmap. eapply List.Forall_impl; [| exact Hback]. by intros f [? _]. }
  assert (render <$> fields ≠ []) as Hne' by (by destruct fields).
  split.
  - change (fmMatch (serialize fields body))
      with (breakOn ([LF] ++ js "---" ++ [LF])
              (join [LF] (render <$> fields)
               ++ [LF] ++ js "---" ++ [LF] ++ body)).
    rewrite (app_assoc (js "---")), (app_assoc [LF] (js "---" ++ [LF])).
    apply breakOn_joined_lines; [done | done |].
    intros n Hn. rewrite list_lookup_fmap.
    destruct (fields !! n) as [f |] eqn:Hf; [| done]. cbn. intros [= Hr].
    apply (Hinner n Hn). rewrite Hf. f_equal.
    rewrite list.Forall_forall in Hback.
    destruct (Hback f) as [_ Hparse]; [by eapply list_elem_of_lookup_2 |].
    rewrite <- Hparse, Hr. reflexivity.
  - unfold parseFrontmatter. rewrite split_join by done.
    rewrite <- list_fmap_compose. rewrite <- (list_fmap_id fields) at 2.
    apply list_fmap_ext. intros i f Hf. cbn.
    rewrite list.Forall_forall in Hback.
    by destruct (Hback f) as [_ Hparse]; [by eapply list_elem_of_lookup_2 |].
Qed.

Lemma setField_nonempty (fields : list entry) (key : jstring) (v : jsval) :
  setField fields key v ≠ [].
Proof.
  destruct fields as [| f fields]; [done |]. rewrite setField_cons.
  by case_decide.
Qed.

Lemma setField_readsBack (fields : list entry) (key : jstring) (v : jsval) :
  readsBack (Field key v) → Forall readsBack fields →
  Forall readsBack (setField fields key v).
Proof.
  intros Hnew Hall.
  destruct (list_find (hasKey key) fields) as [[idx f] |] eqn:Hfind.
  - rewrite (setField_found _ _ _ _ _ Hfind). by apply Forall_insert.
  - rewrite (setField_absent _ _ _ Hfind).
    apply Forall_app; split; [done | by apply Forall_singleton].
Qed.

Lemma setField_no_new_raw (fields : list entry) (key : jstring) (v : jsval)
  (n : nat) (r : jstring) :
  setField fields key v !! n = Some (Raw r) → fields !! n = Some (Raw r).
Proof.
  destruct (list_find (hasKey key) fields) as [[idx f] |] eqn:Hfind.
  - rewrite (setField_found _ _ _ _ _ Hfind).
    destruct (decide (n = idx)) as [-> | Hne].
    + intros H. apply list_lookup_insert_Some in H as [(_ & ? & _) | (? & _)]; done.
    + by rewrite list_lookup_insert_ne.
  - rewrite (setField_absent _ _ _ Hfind). intros H.
    apply lookup_app_Some in H as [H | [_ H]]; [done |].
    by destruct (n - length fields)%nat as [| [| ?]].
Qed.

(** X8: what the script writes is a ticket in normal form.  For the
    entries parsed from a valid ticket and any body, the text written is
    matched again with the rendered lines as frontmatter and that body,
    the lines parse into the same entries, and each of them is rendered
    as it stands.  If every frontmatter line of the ticket read is
    already rendered as it stands, writing the entries back with the body
    gives the content that was read. *)
Theorem written_ticket_is_normal_form (content raw body newBody : jstring) :
  fmMatch content = Some (raw, body) →
  let fields := parseFrontmatter raw in
  let written := join [LF] (render <$> fields) in
  fmMatch (serialize fields newBody) = Some (written, newBody)
  ∧ parseFrontmatter written = fields
  ∧ Forall canonicalLine (split LF written)
  ∧ (Forall canonicalLine (split LF raw) → serialize fields body = content).
Proof.
  intros Hfm fields written.
  pose proof (readsBack_parsed raw) as Hback. fold fields in Hback.
  assert (fields ≠ []) as Hne.
  { subst fields. unfold parseFrontmatter.
    pose proof (split_nonempty LF raw). by destruct (split LF raw). }
  destruct (fields_read_back fields newBody Hne Hback) as [Hmatch Hparse].
  { intros n Hn. by eapply parsed_inner_delimiter. }
  split_and!; [done | done | |].
  - subst written. rewrite split_join.
    + apply Forall_fmap. eapply List.Forall_impl; [| exact Hback].
      intros f [_ Hf]. unfold canonicalLine. cbn. by rewrite Hf.
    + apply Forall_fmap. eapply List.Forall_impl; [| exact Hback]. by intros f [? _].
    + by destruct fields.
  - intros Hcanon. rewrite (fmMatch_Some_shape _ _ _ Hfm). unfold serialize.
    assert (render <$> fields = split LF raw) as ->; [| by rewrite join_split].
    subst fields. unfold parseFrontmatter. rewrite <- list_fmap_compose.
    rewrite <- (list_fmap_id (split LF raw)) at 2.
    apply list_fmap_ext. intros i line Hline.
    rewrite list.Forall_forall in Hcanon. apply Hcanon.
    by eapply list_elem_of_lookup_2.
Qed.

Lemma written_ticket_is_normal_form_witness :
  serialize (parseFrontmatter
               (js "id: ab-1234" ++ [LF] ++ js "  note" ++ [LF] ++ js "type: task"))
            (js "Body" ++ [LF])
  = js "---" ++ [LF] ++ js "id: ab-1234" ++ [LF] ++ js "  note" ++ [LF]
    ++ js "type: task" ++ [LF] ++ js "---" ++ [LF] ++ js "Body" ++ [LF].
Proof.
  apply (proj2 (proj2 (proj2 (written_ticket_is_normal_form
           (js "---" ++ [LF] ++ js "id: ab-1234" ++ [LF] ++ js "  note" ++ [LF]
            ++ js "type: task" ++ [LF] ++ js "---" ++ [LF] ++ js "Body" ++ [LF])
           _ _ [] eq_refl)))).
  by_compute.
Defined.

Lemma scalarKeys_isKey (s : slot) (key : jstring) :
  (s, key) ∈ scalarKeys → isKey key = true.
Proof.
  unfold scalarKeys. rewrite !elem_of_cons, elem_of_nil.
  intros [[= _ ->] | [[= _ ->] | [[= _ ->] | [[= _ ->] | []]]]]; reflexivity.
Qed.

(** X9: replacing a scalar field is idempotent over runs.  With a value
    that holds no line terminator, the file the first run writes is a
    valid ticket whose entries are those the run computed, and the same
    run on that file writes the same file again. *)
Theorem scalar_replace_is_idempotent (node : Node) (ticketsDir : jstring)
  (s : slot) (key v : jstring) (o : Opt.t) (content raw body : jstring) :
  (s, key) ∈ scalarKeys →
  onlyOption s (JStr v) o →
  noLineTerminator v = true →
  fmMatch content = Some (raw, body) →
  let fields := setField (parseFrontmatter raw) key (JStr v) in
  let out := serialize fields body in
  amend node ticketsDir o content = ret out
  ∧ fmMatch out = Some (join [LF] (render <$> fields), body)
  ∧ parseFrontmatter (join [LF] (render <$> fields)) = fields
  ∧ amend node ticketsDir o out = ret out.
Proof.
  intros Hkey [Hval Hnull] Hv Hfm fields out.
  assert (∀ c r b, fmMatch c = Some (r, b) →
            amend node ticketsDir o c
            = ret (serialize (setField (parseFrontmatter r) key (JStr v)) b))
    as Hrun.
  { intros c r b Hc. by apply (amend_scalar_only node ticketsDir s key). }
  destruct (fields_read_back fields body) as [Hmatch Hparse].
  - apply setField_nonempty.
  - apply setField_readsBack; [| apply readsBack_parsed].
    apply readsBack_Field; [by eapply scalarKeys_isKey | done].
  - intros n Hn Hraw%setField_no_new_raw.
    by eapply parsed_inner_delimiter.
  - split_and!; [by apply Hrun | done | done |].
    rewrite (Hrun out _ body Hmatch), Hparse. subst out. f_equal. f_equal.
    apply setField_same. subst fields. apply getField_setField.
Qed.

Lemma scalar_replace_is_idempotent_witness :
  let o := Opt.mk (JStr (js "ab-1234")) JNull JNull (JStr (js "0")) JNull
                  JNull JNull JNull in
  ∃ out,
    amend demoBare [] o (demoTicket []) = ret out
    ∧ amend demoBare [] o out = ret out.
Proof.
  intros o.
  edestruct (scalar_replace_is_idempotent demoBare [] Priority (js "priority")
               (js "0") o (demoTicket [])) as (H1 & _ & _ & H2);
    [by_compute | split; [reflexivity | by intros []] | reflexivity
     | reflexivity |].
  eexists. split; [exact H1 | exact H2].
Defined.

(** ** More on tags *)

Lemma elem_of_trimStart (c : N) (s : jstring) : c ∈ trimStart s → c ∈ s.
Proof.
  induction s as [| d s IH]; cbn [trimStart]; [done |].
  destruct (isWhiteSpace d); [| done]. intros H. right. by apply IH.
Qed.

Lemma elem_of_trim (c : N) (s : jstring) : c ∈ trim s → c ∈ s.
Proof.
  unfold trim, trimEnd. rewrite elem_of_reverse.
  intros H%elem_of_trimStart. rewrite elem_of_reverse in H.
  by apply elem_of_trimStart.
Qed.

Lemma parseTags_wellFormed (s : jstring) : Forall wellFormedTag (parseTags s).
Proof.
  pose proof (parseTags_trimmed s) as Htrim.
  rewrite list.Forall_forall in Htrim. apply list.Forall_forall.
  intros t Ht. destruct (Htrim t Ht) as [Hne Hidem].
  split_and!; [done | done |].
  unfold parseTags in Ht. apply list_elem_of_filter in Ht as [_ Ht].
  apply list_elem_of_fmap in Ht as (u & -> & Hu).
  intros Hin%elem_of_trim.
  pose proof (split_sep_free 44 s) as Hfree.
  rewrite list.Forall_forall in Hfree. by apply (Hfree u).
Qed.

Lemma foldl_pushNew_wellFormed (old news : list jstring) :
  Forall wellFormedTag old → Forall wellFormedTag news →
  Forall wellFormedTag (foldl pushNew old news).
Proof.
  intros Hold Hnews.
  destruct (foldl_pushNew_spec old news) as (added & -> & _ & Hmem & _).
  apply Forall_app. split; [done |]. apply list.Forall_forall.
  intros t [Ht _]%Hmem. rewrite list.Forall_forall in Hnews. by apply Hnews.
Qed.

Lemma mergedTags_wellFormed (existing : jsval) (input : jstring) :
  Forall wellFormedTag (mergedTags existing input).
Proof.
  unfold mergedTags. apply foldl_pushNew_wellFormed; [| apply parseTags_wellFormed].
  destruct (truthy existing); [apply parseTags_wellFormed | constructor].
Qed.

Lemma foldl_pushNew_covers (old news : list jstring) (t : jstring) :
  t ∈ news → t ∈ foldl pushNew old news.
Proof.
  destruct (foldl_pushNew_spec old news) as (added & -> & _ & Hmem & _).
  intros Ht. rewrite elem_of_app. destruct (decide (t ∈ old)); [by left | right].
  by apply Hmem.
Qed.

Lemma foldl_pushNew_NoDup (old news : list jstring) :
  NoDup old → NoDup (foldl pushNew old news).
Proof.
  intros Hold.
  destruct (foldl_pushNew_spec old news) as (added & -> & Hnd & Hmem & _).
  apply list.NoDup_app. split_and!; [done | | done].
  intros t Ht [_ Hout]%Hmem. done.
Qed.

(** X10: the tag list that is written reads back as it was built.  The
    tokens taken from a stored value or from the input are never empty,
    carry no surrounding whitespace and no comma; so is every tag of the
    merged list, and decoding its encoding gives the merged list. *)
Theorem written_tags_read_back (existing : jsval) (input : jstring) :
  Forall wellFormedTag (parseTags input)
  ∧ Forall wellFormedTag (mergedTags existing input)
  ∧ parseTags (stripBrackets (encodeTags (mergedTags existing input)))
    = mergedTags existing input
  ∧ truthy (JStr (encodeTags (mergedTags existing input))) = true.
Proof.
  split_and!.
  - apply parseTags_wellFormed.
  - apply mergedTags_wellFormed.
  - apply parseTags_encodeTags, mergedTags_wellFormed.
  - reflexivity.
Qed.

(** X11: appending the same tags again changes nothing.  The field list a
    tags append produces is left as it is by a second append of the same
    input. *)
Theorem tags_append_twice (fields : list entry) (input : jstring)
  (changed : bool) :
  ∃ fields',
    amendTags (JStr input) (fields, changed) = ret (fields', true)
    ∧ amendTags (JStr input) (fields', true) = ret (fields', true).
Proof.
  eexists. split; [apply amendTags_merged |].
  set (merged := mergedTags (getField fields (js "tags")) input).
  rewrite amendTags_merged. cbn [fst].
  rewrite getField_setField.
  rewrite mergedTags_encoded by apply mergedTags_wellFormed.
  rewrite foldl_pushNew_present.
  - by rewrite setField_same by apply getField_setField.
  - intros t Ht. subst merged. unfold mergedTags. by apply foldl_pushNew_covers.
Qed.

(** X12: a tags append never produces a duplicate of its own.  If the
    stored list has no tag twice, neither has the merged list; on a
    ticket without a [tags] entry the merged list is the distinct tokens
    of the input and the entry is added after the last line. *)
Theorem tags_append_adds_no_duplicate (fields : list entry)
  (input : jstring) (changed : bool) :
  let existing := getField fields (js "tags") in
  (NoDup (if truthy existing
          then parseTags (stripBrackets (toString existing)) else []) →
     NoDup (mergedTags existing input))
  ∧ (list_find (hasKey (js "tags")) fields = None →
     NoDup (mergedTags JNull input)
     ∧ (∀ t, t ∈ mergedTags JNull input ↔ t ∈ parseTags input)
     ∧ amendTags (JStr input) (fields, changed)
       = ret (fields ++ [Field (js "tags")
                           (JStr (encodeTags (mergedTags JNull input)))],
              true)).
Proof.
  intros existing. split.
  - intros Hold. unfold mergedTags. by apply foldl_pushNew_NoDup.
  - intros Hfind.
    assert (existing = JNull) as Hnone.
    { subst existing. unfold getField. by rewrite Hfind. }
    split_and!.
    + unfold mergedTags. cbn. apply foldl_pushNew_NoDup, NoDup_nil_2.
    + intros t. unfold mergedTags. cbn.
      destruct (foldl_pushNew_spec [] (parseTags input))
        as (added & -> & _ & Hmem & _).
      cbn. rewrite Hmem. rewrite elem_of_nil. tauto.
    + rewrite amendTags_merged. fold existing. rewrite Hnone.
      by rewrite setField_absent.
Qed.

Lemma tags_append_adds_no_duplicate_witness :
  amendTags (JStr (js "new, urgent,new"))
            ([Field (js "id") (JStr (js "ab-1234"))], false)
  = ret ([Field (js "id") (JStr (js "ab-1234"));
          Field (js "tags") (JStr (js "[new, urgent]"))], true).
Proof.
  destruct (proj2 (tags_append_adds_no_duplicate
                     [Field (js "id") (JStr (js "ab-1234"))]
                     (js "new, urgent,new") false) eq_refl)
    as (_ & _ & Hrun).
  rewrite Hrun. reflexivity.
Defined.

(** ** Laws of the field list *)

Lemma getField_setField_ne (fields : list entry) (key key' : jstring)
  (v : jsval) :
  key ≠ key' → getField (setField fields key v) key' = getField fields key'.
Proof.
  intros Hne. induction fields as [| f fields IH].
  - rewrite setField_nil, !getField_cons. rewrite decide_False; [done |].
    rewrite hasKey_Field. congruence.
  - rewrite setField_cons. case_decide as Hf.
    + destruct f as [k w | r]; [| by apply hasKey_Raw in Hf].
      apply hasKey_Field in Hf as ->. cbn [setValue].
      rewrite !getField_cons. rewrite !decide_False; [done | |];
        rewrite hasKey_Field; congruence.
    + rewrite !getField_cons. case_decide; [done | apply IH].
Qed.

Lemma setField_setField (fields : list entry) (key : jstring) (v w : jsval) :
  setField (setField fields key v) key w = setField fields key w.
Proof.
  induction fields as [| f fields IH].
  - rewrite !setField_nil, setField_cons. rewrite decide_True; [done |].
    by apply hasKey_Field.
  - rewrite !setField_cons. case_decide as Hf.
    + destruct f as [k x | r]; [| by apply hasKey_Raw in Hf].
      cbn [setValue]. rewrite setField_cons. rewrite decide_True; [done |].
      apply hasKey_Field. by apply hasKey_Field in Hf.
    + rewrite setField_cons, decide_False by done. by rewrite IH.
Qed.

Lemma setField_keys (fields : list entry) (key : jstring) (v : jsval) :
  entryKey <$> setField fields key v
  = if decide (Some key ∈ entryKey <$> fields) then entryKey <$> fields
    else (entryKey <$> fields) ++ [Some key].
Proof.
  induction fields as [| f fields IH].
  - rewrite setField_nil. cbn. rewrite decide_False; [done |]. apply not_elem_of_nil.
  - rewrite setField_cons. rewrite fmap_cons.
    destruct (decide (hasKey key f)) as [Hf | Hf].
    + rewrite decide_True by (apply elem_of_cons; by left). by destruct f.
    + rewrite fmap_cons, IH.
      destruct (decide (Some key ∈ entryKey <$> fields)) as [Hin | Hin].
      * rewrite decide_True; [done |]. apply elem_of_cons. by right.
      * rewrite decide_False; [done |]. rewrite elem_of_cons.
        intros [Heq | ?]; [| done]. by apply Hf.
Qed.

(** X13: [getField] and [setField] as a store.  A key reads back the value
    just set and every other key reads what it read before; setting a key
    twice is setting it to the second value; the keys keep their order,
    with the key added at the end when it was not there, so the list
    grows by at most one entry and never shrinks. *)
Theorem field_store_laws (fields : list entry) (key : jstring) (v w : jsval) :
  getField (setField fields key v) key = v
  ∧ (∀ key', key ≠ key' →
       getField (setField fields key v) key' = getField fields key')
  ∧ setField (setField fields key v) key w = setField fields key w
  ∧ entryKey <$> setField fields key v
    = (if decide (Some key ∈ entryKey <$> fields) then entryKey <$> fields
       else (entryKey <$> fields) ++ [Some key])
  ∧ (length fields ≤ length (setField fields key v) ≤ S (length fields))%nat.
Proof.
  split_and!.
  - apply getField_setField.
  - intros key' Hne. by apply getField_setField_ne.
  - apply setField_setField.
  - apply setField_keys.
  - pose proof (f_equal length (setField_keys fields key v)) as Hlen.
    rewrite length_fmap in Hlen. rewrite Hlen.
    case_decide; rewrite ?length_app, !length_fmap; simpl; lia.
  - pose proof (f_equal length (setField_keys fields key v)) as Hlen.
    rewrite length_fmap in Hlen. rewrite Hlen.
    case_decide; rewrite ?length_app, !length_fmap; simpl; lia.
Qed.

(** ** More on resolving an identifier *)

(** X14: what [resolveTicket] can return.  When it returns a file it has
    printed nothing, and the file is the exact [<trimmed id>.md], which
    exists, or an entry of the directory listing that ends in [.md] and
    contains the trimmed id, the only such entry, with the exact file
    missing. *)
Theorem resolved_file_is_exact_or_listed (node : Node)
  (ticketsDir id file : jstring) (t : list event) :
  resolveTicket node ticketsDir (JStr id) = (t, inr file) →
  let exact := path_join node ticketsDir (trim id ++ js ".md") in
  t = []
  ∧ ((file = exact ∧ existsSync node exact = true)
     ∨ (existsSync node exact = false
        ∧ ∃ entries f,
            readdirSync node ticketsDir = Some entries
            ∧ ticketMatches id entries = [f]
            ∧ f ∈ entries ∧ js ".md" `suffix_of` f
            ∧ (∃ a b, f = a ++ trim id ++ b)
            ∧ file = path_join node ticketsDir f)).
Proof.
  intros Hres exact. split; [by eapply resolveTicket_success |].
  revert Hres. unfold resolveTicket. fold exact.
  destruct (existsSync node exact) eqn:Hex; [intros [= _ <-]; by left |].
  destruct (readdirSync node ticketsDir) as [entries |] eqn:Hdir; [| done].
  cbn zeta.
  destruct (ticketMatches id entries) as [| f [| g l]] eqn:Hm; cbn; try done.
  intros [= _ <-]. right. split; [done |]. exists entries, f.
  assert (f ∈ ticketMatches id entries) as Hf by (rewrite Hm; by left).
  apply elem_of_ticketMatches in Hf as (? & ? & ?). done.
Qed.

Lemma resolved_file_is_exact_or_listed_witness :
  ∃ f, ticketMatches (js "5678") [js "ab-1234.md"; js "cd-5678.md"] = [f]
       ∧ js "/tmp/t/.tickets/cd-5678.md" = demo_join (js "/tmp/t/.tickets") f.
Proof.
  destruct (resolved_file_is_exact_or_listed (demoStore (demoTicket []))
              (js "/tmp/t/.tickets") (js "5678")
              (js "/tmp/t/.tickets/cd-5678.md") [] eq_refl)
    as (_ & [[_ Hex] | (_ & entries & f & Hdir & Hm & _ & _ & _ & Hfile)]).
  - vm_compute in Hex. discriminate.
  - vm_compute in Hdir. injection Hdir as <-. exists f. split; [exact Hm | exact Hfile].
Defined.

Lemma includes_nil (s : jstring) : includes s [] = true.
Proof. by destruct s. Qed.

(** X15: an identifier of whitespace only matches every ticket.  When the
    trimmed id is empty the matches are all the [.md] entries of the
    directory, so with the file [.md] missing the id resolves to the
    ticket if the directory holds exactly one, is ambiguous if it holds
    several, and is not found if it holds none. *)
Theorem blank_id_matches_every_ticket (node : Node) (ticketsDir id : jstring)
  (entries : list jstring) :
  trim id = [] →
  existsSync node (path_join node ticketsDir (js ".md")) = false →
  readdirSync node ticketsDir = Some entries →
  let tickets := filter (λ f, endsWith f (js ".md") = true) entries in
  ticketMatches id entries = tickets
  ∧ (∀ f, tickets = [f] →
       resolveTicket node ticketsDir (JStr id)
         = ret (path_join node ticketsDir f))
  ∧ ((2 ≤ length tickets)%nat →
     resolveTicket node ticketsDir (JStr id)
       = ([Stderr (js "Error: ambiguous ID '" ++ id
                   ++ js "' matches multiple tickets")], inl (Exited 1)))
  ∧ (tickets = [] →
     resolveTicket node ticketsDir (JStr id)
       = ([Stderr (js "Error: ticket '" ++ id ++ js "' not found")],
          inl (Exited 1))).
Proof.
  intros Hblank Hex Hdir tickets.
  assert (ticketMatches id entries = tickets) as Hm.
  { subst tickets. unfold ticketMatches. rewrite Hblank.
    apply list_filter_iff. intros f. rewrite includes_nil, andb_true_r.
    by rewrite Is_true_true. }
  split; [done |].
  assert (resolveTicket node ticketsDir (JStr id)
          = if (length tickets =? 1)%nat then
              ret (path_join node ticketsDir (default [] (tickets !! 0%nat)))
            else if (1 <? length tickets)%nat then
              (console_error (js "Error: ambiguous ID '" ++ id
                              ++ js "' matches multiple tickets") ;;;
               process_exit 1)
            else
              (console_error (js "Error: ticket '" ++ id ++ js "' not found") ;;;
               process_exit 1)) as ->.
  { unfold resolveTicket. rewrite Hblank. cbn [app]. by rewrite Hex, Hdir, Hm. }
  split_and!.
  - by intros f ->.
  - intros Hlen. destruct tickets as [| f [| g l]]; simpl in *; [lia | lia | done].
  - by intros ->.
Qed.

Lemma blank_id_matches_every_ticket_witness :
  resolveTicket
    (demoNode None (js "/p") [js "/"; js "/p"; js "/p/.tickets"]
       [(js "/p/.tickets/ab-1234.md", demoTicket [])])
    (js "/p/.tickets") (JStr (js "  "))
  = ret (js "/p/.tickets/ab-1234.md").
Proof.
  edestruct (blank_id_matches_every_ticket
               (demoNode None (js "/p") [js "/"; js "/p"; js "/p/.tickets"]
                  [(js "/p/.tickets/ab-1234.md", demoTicket [])])
               (js "/p/.tickets") (js "  ")) as (_ & Hone & _);
    [reflexivity | reflexivity | reflexivity |].
  apply (Hone (js "ab-1234.md")). reflexivity.
Defined.

(** ** More on the directory walk *)

Lemma walkParents_returns (node : Node) (fuel : nat) (dir d : jstring)
  (t : list event) :
  walkParents node fuel dir = (t, inr d) →
  t = []
  ∧ ∃ k, (k < fuel)%nat
         ∧ d = path_join node (ancestor node k dir) (js ".tickets")
         ∧ hasTickets node (ancestor node k dir) = true
         ∧ ∀ j, (j < k)%nat → hasTickets node (ancestor node j dir) = false.
Proof.
  revert dir. induction fuel as [| fuel IH]; intros dir; cbn [walkParents];
    [done |].
  fold (hasTickets node dir). destruct (hasTickets node dir) eqn:Hhere.
  - intros [= <- <-]. split; [done |]. exists 0%nat.
    split_and!; [lia | done | done |]. intros j Hj. lia.
  - destruct (streq (path_dirname node dir) dir); [done |].
    intros (-> & k & Hk & -> & Hfound & Hbefore)%IH. split; [done |].
    exists (S k). split_and!; [lia | done | done |].
    intros [| j] Hj; [done |]. apply Hbefore. lia.
Qed.

Lemma walkParents_enough_fuel (node : Node) (k fuel : nat) (dir : jstring) :
  (k < fuel)%nat →
  path_dirname node (ancestor node k dir) = ancestor node k dir →
  status (walkParents node fuel dir) ≠ inl OutOfFuel.
Proof.
  revert fuel dir. induction k as [| k IH]; intros fuel dir Hfuel Hroot;
    (destruct fuel as [| fuel]; [lia |]); cbn [walkParents ancestor] in *.
  - destruct (_ && _); [done |].
    apply streq_true in Hroot. by rewrite Hroot.
  - destruct (_ && _); [done |].
    destruct (streq (path_dirname node dir) dir); [done |].
    apply IH; [lia | done].
Qed.

Lemma walkParents_more_fuel (node : Node) (fuel n : nat) (dir : jstring) :
  status (walkParents node fuel dir) ≠ inl OutOfFuel →
  walkParents node (fuel + n) dir = walkParents node fuel dir.
Proof.
  revert dir. induction fuel as [| fuel IH]; intros dir; cbn [walkParents Nat.add];
    [done |].
  destruct (_ && _); [done |].
  destruct (streq (path_dirname node dir) dir); [done |]. apply IH.
Qed.

(** X16: the directory walk, when the override is unset or empty.  What it
    returns is [dir/.tickets] for the nearest [dir] at or above the working
    directory where that path exists and is a directory, and nothing has
    been printed.  Once fuel exceeds the number of steps up to a directory
    that is its own parent the walk does not run out of fuel, and more
    fuel does not change its outcome. *)
Theorem walk_returns_nearest_directory (node : Node) (fuel : nat) :
  env_TICKETS_DIR node = None ∨ env_TICKETS_DIR node = Some [] →
  (∀ t d,
     findTicketsDir node fuel = (t, inr d) →
     t = [] ∧ existsSync node d = true ∧ isDirectory node d = true
     ∧ ∃ k, (k < fuel)%nat
            ∧ d = path_join node (ancestor node k (cwd node)) (js ".tickets")
            ∧ ∀ j, (j < k)%nat →
                hasTickets node (ancestor node j (cwd node)) = false)
  ∧ (∀ k, (k < fuel)%nat →
       path_dirname node (ancestor node k (cwd node))
         = ancestor node k (cwd node) →
       status (findTicketsDir node fuel) ≠ inl OutOfFuel)
  ∧ (∀ n, status (findTicketsDir node fuel) ≠ inl OutOfFuel →
       findTicketsDir node (fuel + n) = findTicketsDir node fuel).
Proof.
  intros Henv.
  assert (∀ m, findTicketsDir node m = walkParents node m (cwd node)) as Hwalk.
  { intros m. unfold findTicketsDir. by destruct Henv as [-> | ->]. }
  rewrite !Hwalk. split_and!.
  - intros t d (-> & k & Hk & -> & Hfound & Hbefore)%walkParents_returns.
    unfold hasTickets in Hfound. apply andb_true_iff in Hfound as [? ?].
    split_and!; try done. by exists k.
  - intros k Hk Hroot. by eapply walkParents_enough_fuel.
  - intros n Hok. rewrite Hwalk. by apply walkParents_more_fuel.
Qed.

Lemma walk_returns_nearest_directory_witness :
  findTicketsDir (demoDeep None) 3 = ret (js "/tmp/t/.tickets")
  ∧ isDirectory (demoDeep None) (js "/tmp/t/.tickets") = true
  ∧ findTicketsDir (demoDeep None) (3 + 7) = findTicketsDir (demoDeep None) 3.
Proof.
  destruct (walk_returns_nearest_directory (demoDeep None) 3 (or_introl eq_refl))
    as (Hret & _ & Hmore).
  destruct (Hret [] (js "/tmp/t/.tickets") eq_refl) as (_ & _ & Hdir & _).
  split_and!; [reflexivity | exact Hdir | apply Hmore; discriminate].
Defined.
